(** * Project1_LinReg: the dynamic container [yrgo::container::Vector] and
      the linear-regression model trained over it.

    The container is embedded from [Project1_LinReg_/vector.hpp].  Objects live
    in a store addressed by reference, so that [a = a] and [a += a] are the
    same code run on one object, as in C++.  The heap is an oracle: every
    request to (re)allocate is either refused or granted, and a granted block
    comes with unspecified contents in its fresh cells. *)

From Stdlib Require Import Floats.PrimFloat ZArith Uint63 Lia.
From stdpp Require Import base option list.

Set Default Proof Using "Type".
Set Warnings "-inexact-float".

Module container.

Section Vector.

Context {T : Type}.

(** ** Data model *)

(** [T* data_{nullptr}; size_t size_{};]  A block owned by exactly one
    container is represented by its contents; [None] is [nullptr].  [size_]
    counts the elements of a block that is resident in memory, and the sums
    [size_ + 1] and [size_ + source.size_] count elements of blocks that are
    resident together, so no size in this file comes near the top of
    [size_t]: sizes are [nat], and their arithmetic does not wrap. *)
Record Vector : Type := mkVector {
  data_ : option (list T);
  size_ : nat
}.

(** The state of a container after [Vector(void) noexcept = default]. *)
Definition empty_Vector : Vector := mkVector None 0.

Definition block (v : Vector) : list T := default [] (data_ v).

(** Class invariant: [size_] is the number of elements of the block. *)
Definition wf (v : Vector) : Prop := length (block v) = size_ v.

(** What the heap answers to one request: [None] refuses it, [Some junk]
    grants it, the fresh cell at index [i] holding [junk i]. *)
Definition Grant : Type := option (nat → T).

Record World : Type := mkWorld {
  heap : nat → Grant;      (* the answer to the k-th request *)
  clock : nat;             (* number of requests made so far *)
  store : list Vector      (* the container objects, by reference *)
}.

Definition ref : Type := nat.

(** The world after one more request to the heap, and with another store. *)
Definition tick (w : World) : World := mkWorld (heap w) (S (clock w)) (store w).
Definition with_store (w : World) (σ : list Vector) : World := mkWorld (heap w) (clock w) σ.

(** ** Computations over the world *)

Inductive Res (A : Type) : Type :=
| Ok (a : A) (w : World)
| Undefined       (* null or out-of-block access, dangling reference *)
| OutOfFuel.      (* a loop was cut before its condition turned false *)
Arguments Ok {A} a w.
Arguments Undefined {A}.
Arguments OutOfFuel {A}.

Definition M (A : Type) : Type := World → Res A.

#[export] Instance M_ret : MRet M := λ A a w, Ok a w.
#[export] Instance M_bind : MBind M := λ A B k m w,
  match m w with
  | Ok a w' => k a w'
  | Undefined => Undefined
  | OutOfFuel => OutOfFuel
  end.

Definition undefined {A} : M A := λ _, Undefined.
Definition out_of_fuel {A} : M A := λ _, OutOfFuel.

Definition deref (r : ref) : M Vector := λ w,
  match store w !! r with
  | Some v => Ok v w
  | None => Undefined
  end.

Definition update (r : ref) (f : Vector → Vector) : M unit := λ w,
  match store w !! r with
  | Some v => Ok tt (with_store w (<[r := f v]> (store w)))
  | None => Undefined
  end.

(** A new object with default member initialisers; its reference is returned. *)
Definition new_object : M ref := λ w,
  Ok (length (store w)) (with_store w (store w ++ [empty_Vector])).

Definition get_data_ (r : ref) : M (option (list T)) := v ← deref r; mret (data_ v).
Definition get_size_ (r : ref) : M nat := v ← deref r; mret (size_ v).
Definition set_data_ (r : ref) (d : option (list T)) : M unit :=
  update r (λ v, mkVector d (size_ v)).
Definition set_size_ (r : ref) (n : nat) : M unit :=
  update r (λ v, mkVector (data_ v) n).

(** [data_[i]] as an rvalue. *)
Definition read_elem (r : ref) (i : nat) : M T :=
  d ← get_data_ r;
  match d with
  | Some blk => match blk !! i with Some x => mret x | None => undefined end
  | None => undefined
  end.

(** [data_[i] = x]. *)
Definition write_elem (r : ref) (i : nat) (x : T) : M unit :=
  d ← get_data_ r;
  match d with
  | Some blk => if decide (i < length blk) then set_data_ r (Some (<[i := x]> blk))
                else undefined
  | None => undefined
  end.

(** ** The allocation helpers of [container.hpp] *)

(** The block a granted reallocation returns: the old contents up to the new
    length, then fresh cells. *)
Definition realloc_block (old : list T) (new_size : nat) (junk : nat → T) : list T :=
  take new_size old ++ (junk <$> seq (length old) (new_size - length old)).

(** Modelled from the spec: [detail::Resize<T>(block, new_size)] of
    [container.hpp], which is not among the sources.  It reallocates the block
    to hold exactly [new_size] elements, keeping the values at the positions
    that remain valid, and returns the new block; when the heap refuses, it
    returns [nullptr] and the old block is untouched. *)
Definition detail_Resize (blk : option (list T)) (new_size : nat) : M (option (list T)) := λ w,
  match heap w (clock w) with
  | Some junk => Ok (Some (realloc_block (default [] blk) new_size junk)) (tick w)
  | None => Ok None (tick w)
  end.

(** Modelled from the spec: [detail::Delete<T>(block)] of [container.hpp],
    which is not among the sources.  It releases the block and leaves the
    pointer it was given by reference null; the new value of the pointer is
    returned. *)
Definition detail_Delete (blk : option (list T)) : M (option (list T)) := mret None.

(** ** Member functions of [Vector], in the order of [vector.hpp] *)

(** [void Clear(void)] *)
Definition Clear (this : ref) : M unit :=
  d ← get_data_ this;
  d' ← detail_Delete d;
  set_data_ this d';;
  set_size_ this 0.

(** [bool Resize(const size_t new_size)] *)
Definition Resize (this : ref) (new_size : nat) : M bool :=
  d ← get_data_ this;
  copy ← detail_Resize d new_size;
  match copy with
  | None => mret false
  | Some _ =>
      set_data_ this copy;;
      set_size_ this new_size;;
      mret true
  end.

(** [bool PushBack(const T& value)] *)
Definition PushBack (this : ref) (value : T) : M bool :=
  n ← get_size_ this;
  ok ← Resize this (n + 1);
  if ok : bool then
    n' ← get_size_ this;
    match n' with
    | 0 => undefined                  (* [size_ - 1] wraps round: far out of the block *)
    | S i => write_elem this i value
    end;;
    mret true
  else mret false.

(** [bool PopBack(void)] *)
Definition PopBack (this : ref) : M bool :=
  n ← get_size_ this;
  if decide (n ≤ 1) then
    Clear this;;
    mret true
  else Resize this (n - 1).

(** The loop of [void Assign(const Vector& source, const size_t offset)]:
    [for (size_t i{}; offset + i < size_ && i < source.size_; ++i)]. *)
Fixpoint Assign_loop (fuel : nat) (this source : ref) (offset i : nat) : M unit :=
  match fuel with
  | 0 => out_of_fuel
  | S fuel' =>
      n ← get_size_ this;
      m ← get_size_ source;
      if decide (offset + i < n ∧ i < m) then
        x ← read_elem source i;
        write_elem this (offset + i) x;;
        Assign_loop fuel' this source offset (S i)
      else mret tt
  end.

(** The loop runs for at most [source.size_] rounds, and one more test of its
    condition ends it. *)
Definition Assign (this source : ref) (offset : nat) : M unit :=
  m ← get_size_ source;
  Assign_loop (S m) this source offset 0.

(** The loop of [void Assign(const T (&values)[size], const size_t offset)]:
    [for (size_t i{}; i < size && offset + i < size_; ++i)]. *)
Fixpoint Assign_values_loop (fuel : nat) (this : ref) (values : list T) (offset i : nat) : M unit :=
  match fuel with
  | 0 => out_of_fuel
  | S fuel' =>
      n ← get_size_ this;
      if decide (i < length values ∧ offset + i < n) then
        match values !! i with
        | Some x => write_elem this (offset + i) x
        | None => undefined
        end;;
        Assign_values_loop fuel' this values offset (S i)
      else mret tt
  end.

Definition Assign_values (this : ref) (values : list T) (offset : nat) : M unit :=
  Assign_values_loop (S (length values)) this values offset 0.

(** [bool Copy(const Vector& source)] *)
Definition Copy (this source : ref) : M bool :=
  m ← get_size_ source;
  ok ← Resize this m;
  if ok : bool then
    Assign this source 0;;
    mret true
  else mret false.

(** [bool AddValues(const Vector& source)] *)
Definition AddValues (this source : ref) : M bool :=
  offset ← get_size_ this;
  m ← get_size_ source;
  ok ← Resize this (offset + m);
  if ok : bool then
    Assign this source offset;;
    mret true
  else mret false.

(** [template <size_t size> bool AddValues(const T (&values)[size])] *)
Definition AddValues_values (this : ref) (values : list T) : M bool :=
  offset ← get_size_ this;
  ok ← Resize this (offset + length values);
  if ok : bool then
    Assign_values this values offset;;
    mret true
  else mret false.

(** [Vector(void)] *)
Definition Vector_default : M ref := new_object.

(** [Vector(const size_t size)] *)
Definition Vector_sized (size : nat) : M ref :=
  this ← new_object;
  Resize this size;;
  mret this.

(** [template <size_t size> Vector(const T (&values)[size])] *)
Definition Vector_values (values : list T) : M ref :=
  this ← new_object;
  ok ← Resize this (length values);
  (if ok : bool then Assign_values this values 0 else mret tt);;
  mret this.

(** [Vector(const Vector& source)] *)
Definition Vector_copy (source : ref) : M ref :=
  this ← new_object;
  Copy this source;;
  mret this.

(** [Vector(Vector&& source)] *)
Definition Vector_move (source : ref) : M ref :=
  this ← new_object;
  d ← get_data_ source;
  set_data_ this d;;
  n ← get_size_ source;
  set_size_ this n;;
  set_data_ source None;;
  set_size_ source 0;;
  mret this.

(** [~Vector(void)] *)
Definition Vector_destroy (this : ref) : M unit := Clear this.

(** [void operator=(const Vector& source)] *)
Definition operator_assign (this source : ref) : M unit :=
  Clear this;;
  Copy this source;;
  mret tt.

(** [template <size_t size> void operator=(const T (&values)[size])]: the
    argument of [Copy] is a temporary built by the converting constructor and
    destroyed at the end of the statement. *)
Definition operator_assign_values (this : ref) (values : list T) : M unit :=
  Clear this;;
  tmp ← Vector_values values;
  Copy this tmp;;
  Vector_destroy tmp.

(** [void operator+=(const Vector& source)] *)
Definition operator_add_assign (this source : ref) : M unit :=
  AddValues this source;;
  mret tt.

(** [template <size_t size> void operator+=(const T (&values)[size])] *)
Definition operator_add_assign_values (this : ref) (values : list T) : M unit :=
  AddValues_values this values;;
  mret tt.

(** [size_t Size(void) const] and [bool Empty(void) const] *)
Definition Size (this : ref) : M nat := get_size_ this.
Definition Empty (this : ref) : M bool :=
  n ← get_size_ this; mret (if decide (n = 0) then true else false).

(** [const T& operator[](const size_t index) const] *)
Definition operator_index (this : ref) (index : nat) : M T := read_elem this index.

(** [T& operator[](const size_t index)] used as the target of an assignment:
    [v[index] = value]. *)
Definition operator_index_assign (this : ref) (index : nat) (value : T) : M unit :=
  write_elem this index value.

(** A pointer as the member functions below return it: [nullptr], or the
    address [data_ + offset] in the block of the container asked, the address
    one past the last cell included. *)
Inductive pointer : Type :=
| nullptr
| cell (offset : nat).

(** [T* Data(void)] and [T* begin(void)]: both return [data_]. *)
Definition Data (this : ref) : M pointer :=
  d ← get_data_ this;
  mret (match d with Some _ => cell 0 | None => nullptr end).

Definition begin (this : ref) : M pointer := Data this.

(** [T* end(void) { return data_ + size_; }]  Only 0 may be added to a null
    pointer. *)
Definition end_ (this : ref) : M pointer :=
  d ← get_data_ this;
  n ← get_size_ this;
  match d with
  | Some _ => mret (cell n)
  | None => if decide (n = 0) then mret nullptr else undefined
  end.

(** [T* last(void) { return size_ > 0 ? end() - 1 : nullptr; }] *)
Definition last (this : ref) : M pointer :=
  n ← get_size_ this;
  if decide (0 < n) then
    p ← end_ this;
    match p with
    | cell (S offset) => mret (cell offset)
    | _ => undefined
    end
  else mret nullptr.

(** [*p] for a pointer [p] obtained from the container [this]. *)
Definition load (this : ref) (p : pointer) : M T :=
  match p with
  | cell offset => read_elem this offset
  | nullptr => undefined
  end.

(** Sequences of calls on one container: [PushBack] of each value in turn,
    and [PopBack] a number of times, collecting what each call returned. *)
Fixpoint PushBack_all (this : ref) (values : list T) : M (list bool) :=
  match values with
  | [] => mret []
  | value :: values' =>
      b ← PushBack this value;
      bs ← PushBack_all this values';
      mret (b :: bs)
  end.

Fixpoint PopBack_times (n : nat) (this : ref) : M (list bool) :=
  match n with
  | 0 => mret []
  | S n' =>
      b ← PopBack this;
      bs ← PopBack_times n' this;
      mret (b :: bs)
  end.

(** An operation that reports by [bool] either succeeds or leaves every
    container as it was. *)
Definition succeeds_or_unchanged (op : M bool) (w : World) : Prop :=
  ∃ b w', op w = Ok b w' ∧ (b = true ∨ store w' = store w).

(** The same for the assignment [this = source], which returns nothing: it
    succeeded when [this] holds the values [source] held. *)
Definition assignment_succeeds_or_unchanged (this source : ref) (w : World) : Prop :=
  ∃ w', operator_assign this source w = Ok tt w' ∧
        ((∃ s d, store w !! source = Some s ∧ store w' !! this = Some d ∧
                 block d = block s ∧ size_ d = size_ s)
         ∨ store w' = store w).

(** An operation keeps the class invariant when, run on a store of
    well-formed containers, it leaves a store of well-formed containers. *)
Definition preserves_wf {A} (op : M A) : Prop :=
  ∀ w a w', Forall wf (store w) → op w = Ok a w' → Forall wf (store w').

End Vector.

Arguments Vector : clear implicits.
Arguments Grant : clear implicits.
Arguments World : clear implicits.
Arguments Res : clear implicits.
Arguments M : clear implicits.
Arguments Ok {T A} a w.
Arguments Undefined {T A}.
Arguments OutOfFuel {T A}.

End container.

(** * The regression model *)

Module lin_reg.

Import container.

Local Open Scope float_scope.

(** Modelled from the spec: the class [yrgo::LinReg] of [lin_reg.hpp], which
    is not among the sources; only its callers ([main.cpp]) and its tests
    ([lin_reg_test.cpp]) are.  The model holds the two containers of training
    data and the two parameters, both zero at first; [double] is IEEE 754
    binary64, as on the host the tests run on. *)
Record LinReg : Type := mkLinReg {
  train_in : Vector float;
  train_out : Vector float;
  bias : float;
  weight : float
}.

(** Modelled from the spec: the default-constructed model. *)
Definition LinReg_default : LinReg := mkLinReg empty_Vector empty_Vector 0 0.

(** Modelled from the spec: [LoadTrainingData(inputs, outputs)] stores the two
    containers; their lengths are not compared. *)
Definition LoadTrainingData (inputs outputs : Vector float) (m : LinReg) : LinReg :=
  mkLinReg inputs outputs (bias m) (weight m).

(** Modelled from the spec: the constructor [LinReg model{inputs, outputs}]
    used by the tests. *)
Definition LinReg_of (inputs outputs : Vector float) : LinReg :=
  LoadTrainingData inputs outputs LinReg_default.

(** Modelled from the spec: [Predict(x)] returns [bias + weight * x]. *)
Definition Predict (m : LinReg) (x : float) : float := bias m + weight m * x.

(** Modelled from the spec: the learning rate is the constant 1 %. *)
Definition learning_rate : float := 0.01.

(** Modelled from the spec: the conversion of an element count to [double],
    for the division that turns a sum into a mean. *)
Definition to_double (n : nat) : float := of_uint63 (Uint63.of_Z (Z.of_nat n)).

(** Modelled from the spec: one pass over the training pairs [i], [i+1], ...,
    adding the error of each prediction to the first sum and the error times
    the input to the second.  Reading past the end of a container (the
    containers differ in length) has no defined result. *)
Fixpoint accumulate (count i : nat) (m : LinReg) (sums : float * float) : option (float * float) :=
  match count with
  | O => Some sums
  | S count' =>
      x ← block (train_in m) !! i;
      y ← block (train_out m) !! i;
      let e := Predict m x - y in
      accumulate count' (S i) m (fst sums + e, snd sums + e * x)
  end.

(** Modelled from the spec: one epoch of batch gradient descent: both mean
    gradients are computed over the full training set, then both parameters
    are updated. *)
Definition Epoch (m : LinReg) : option LinReg :=
  let n := size_ (train_in m) in
  sums ← accumulate n 0 m (0, 0);
  let grad_bias := fst sums / to_double n in
  let grad_weight := snd sums / to_double n in
  Some (mkLinReg (train_in m) (train_out m)
          (bias m - learning_rate * grad_bias)
          (weight m - learning_rate * grad_weight)).

(** Modelled from the spec: the given number of epochs, one after another. *)
Fixpoint Epochs (epochs : nat) (m : LinReg) : option LinReg :=
  match epochs with
  | O => Some m
  | S epochs' => m' ← Epoch m; Epochs epochs' m'
  end.

(** Modelled from the spec: [Train(epochs)] runs [epochs] iterations of batch
    gradient descent; with an empty training set it does nothing. *)
Definition Train (epochs : nat) (m : LinReg) : option LinReg :=
  if decide (size_ (train_in m) = 0%nat) then Some m else Epochs epochs m.

(** ** The update rule in the words of the specification *)

Definition mean (l : list float) : float := fold_left PrimFloat.add l 0 / to_double (length l).

Definition grad_bias (pairs : list (float * float)) (b w : float) : float :=
  mean ((λ p, b + w * p.1 - p.2) <$> pairs).

Definition grad_weight (pairs : list (float * float)) (b w : float) : float :=
  mean ((λ p, (b + w * p.1 - p.2) * p.1) <$> pairs).

Definition gradient_descent_step (pairs : list (float * float)) (bw : float * float) : float * float :=
  (bw.1 - 0.01 * grad_bias pairs bw.1 bw.2, bw.2 - 0.01 * grad_weight pairs bw.1 bw.2).

(** The container holding the values of an array literal, as the converting
    constructor builds it when the heap grants its request. *)
Definition Vector_of (values : list float) : Vector float :=
  mkVector (Some values) (length values).

(** ** The tests of [lin_reg_test.cpp] *)

(** [EXPECT_NEAR(val1, val2, abs_error)] holds when the two values differ by
    at most [abs_error]. *)
Definition EXPECT_NEAR (val1 val2 abs_error : float) : bool :=
  abs (val1 - val2) <=? abs_error.

(** [yrgo::LinReg model{inputs, outputs}; model.Train(1000);] *)
Definition trained (inputs outputs : list float) : option LinReg :=
  Train 1000 (LinReg_of (Vector_of inputs) (Vector_of outputs)).

(** The body shared by [Test1], [Test2] and [Test3]: train for 1000 epochs,
    then compare the prediction at every training input with the training
    output.  [Some true] when every expectation holds. *)
Definition LinRegTest (inputs outputs : list float) : option bool :=
  model ← trained inputs outputs;
  Some (forallb
          (λ i, match outputs !! i, inputs !! i with
                | Some y, Some x => EXPECT_NEAR y (Predict model x) 0.001
                | _, _ => false
                end)
          (seq 0 (length inputs))).

Definition Test1 : option bool := LinRegTest [0; 1; 2; 3; 4] [2; 4; 6; 8; 10].
Definition Test2 : option bool := LinRegTest [0; 1; 2; 3; 4] [-5; -2; 1; 4; 7].
Definition Test3 : option bool := LinRegTest [0; 1; 2; 3; 4] [-50; 50; 150; 250; 350].

End lin_reg.

(** * The application: [main.cpp] *)

Module application.

Local Open Scope float_scope.

(** [const auto uin = adc::Read(adc::Pin::A2) / 1023.0 * 5;] of
    [PredictTemp], the reading of the converter being a parameter: [adc.hpp]
    is a driver header outside this development.  The reading is an integer,
    converted to [double] for the division. *)
Definition uin (reading : nat) : float :=
  of_uint63 (Uint63.of_Z (Z.of_nat reading)) / 1023 * 5.

(** The checks the range of [uin] is read from: a voltage between 0 and 5,
    and a list of voltages each below all the later ones. *)
Definition uin_in_range (reading : nat) : bool :=
  (0 <=? uin reading) && (uin reading <=? 5).

Fixpoint ascending (l : list float) : bool :=
  match l with
  | [] => true
  | x :: l' => forallb (λ y, x <? y) l' && ascending l'
  end.

End application.

(** * Concrete heaps and stores *)

Module scenarios.

Import container.

(** A heap that grants every request, one that refuses every request, and one
    that refuses the third request only. *)
Definition generous : nat → Grant nat := λ _, Some (λ _, 0).
Definition exhausted : nat → Grant nat := λ _, None.
Definition refusing_third : nat → Grant nat :=
  λ k, if decide (k = 2) then None else Some (λ _, 0).

Definition holding (values : list nat) : Vector nat :=
  mkVector (Some values) (length values).

(** Two containers, holding 1, 2 and 3, and the heap to come. *)
Definition two_containers (h : nat → Grant nat) : World nat :=
  mkWorld h 0 [holding [1; 2]; holding [3]].

(** One default-constructed container, and the heap to come. *)
Definition one_empty (h : nat → Grant nat) : World nat :=
  mkWorld h 0 [empty_Vector].

End scenarios.

(** * Properties of the container *)

Import container.

Section Vector_facts.

Context {T : Type}.
Implicit Types (w : World T) (v : Vector T) (this source : ref).

(** ** How the primitive steps run *)


Lemma run_bind {A B} (m : M T A) (k : A → M T B) w :
  (m ≫= k) w = match m w with Ok a w' => k a w' | Undefined => Undefined | OutOfFuel => OutOfFuel end.
Proof. reflexivity. Qed.

Lemma run_ret {A} (a : A) w : (mret a : M T A) w = Ok a w.
Proof. reflexivity. Qed.

Lemma deref_run w r v : store w !! r = Some v → deref r w = Ok v w.
Proof. unfold deref. by intros ->. Qed.

Lemma get_size_run w r v : store w !! r = Some v → get_size_ r w = Ok (size_ v) w.
Proof. intros H. unfold get_size_. by rewrite run_bind, (deref_run _ _ _ H). Qed.

Lemma get_data_run w r v : store w !! r = Some v → get_data_ r w = Ok (data_ v) w.
Proof. intros H. unfold get_data_. by rewrite run_bind, (deref_run _ _ _ H). Qed.

Lemma set_data_run w r v d :
  store w !! r = Some v →
  set_data_ r d w = Ok tt (with_store w (<[r := mkVector d (size_ v)]> (store w))).
Proof. unfold set_data_, update. by intros ->. Qed.

Lemma set_size_run w r v n :
  store w !! r = Some v →
  set_size_ r n w = Ok tt (with_store w (<[r := mkVector (data_ v) n]> (store w))).
Proof. unfold set_size_, update. by intros ->. Qed.

Lemma lookup_with_store_eq w (σ : list (Vector T)) r v v' :
  σ !! r = Some v → store (with_store w (<[r := v']> σ)) !! r = Some v'.
Proof. intros H. cbn. apply list_lookup_insert_eq. by eapply lookup_lt_Some. Qed.

Lemma read_elem_run w r v blk i x :
  store w !! r = Some v → data_ v = Some blk → blk !! i = Some x →
  read_elem r i w = Ok x w.
Proof.
  intros H Hd Hx. unfold read_elem.
  by rewrite run_bind, (get_data_run _ _ _ H), Hd, Hx.
Qed.

Lemma write_elem_run w r v blk i x :
  store w !! r = Some v → data_ v = Some blk → i < length blk →
  write_elem r i x w = Ok tt (with_store w (<[r := mkVector (Some (<[i := x]> blk)) (size_ v)]> (store w))).
Proof.
  intros H Hd Hi. unfold write_elem.
  rewrite run_bind, (get_data_run _ _ _ H), Hd.
  destruct (decide (i < length blk)); [|lia].
  by apply set_data_run.
Qed.

(** ** [Clear] and [Resize] *)

Lemma Clear_run w this v :
  store w !! this = Some v →
  Clear this w = Ok tt (with_store w (<[this := empty_Vector]> (store w))).
Proof.
  intros H. unfold Clear, detail_Delete.
  rewrite run_bind, (get_data_run _ _ _ H), run_bind, run_ret.
  rewrite run_bind, (set_data_run _ _ _ _ H).
  erewrite set_size_run by (by eapply lookup_with_store_eq).
  unfold with_store, empty_Vector; cbn. by rewrite list_insert_insert_eq.
Qed.

Lemma Resize_granted w this v new_size junk :
  store w !! this = Some v → heap w (clock w) = Some junk →
  Resize this new_size w =
    Ok true (with_store (tick w)
               (<[this := mkVector (Some (realloc_block (block v) new_size junk)) new_size]> (store w))).
Proof.
  intros H Hh. unfold Resize, detail_Resize.
  rewrite run_bind, (get_data_run _ _ _ H), run_bind, Hh.
  fold (tick w).
  rewrite run_bind, (set_data_run (tick w) _ _ _ H).
  rewrite run_bind.
  erewrite set_size_run by (by eapply lookup_with_store_eq).
  unfold with_store, tick, block; cbn. by rewrite list_insert_insert_eq.
Qed.

Lemma Resize_refused w this v new_size :
  store w !! this = Some v → heap w (clock w) = None →
  Resize this new_size w = Ok false (tick w).
Proof.
  intros H Hh. unfold Resize, detail_Resize.
  by rewrite run_bind, (get_data_run _ _ _ H), run_bind, Hh.
Qed.

Lemma length_realloc_block (old : list T) new_size junk :
  length (realloc_block old new_size junk) = new_size.
Proof.
  unfold realloc_block.
  rewrite length_app, length_take, length_fmap, length_seq. lia.
Qed.

Lemma lookup_realloc_block_old (old : list T) new_size junk i :
  i < new_size → i < length old →
  realloc_block old new_size junk !! i = old !! i.
Proof.
  intros Hi Ho. unfold realloc_block.
  rewrite lookup_app_l by (rewrite length_take; lia).
  by apply lookup_take_lt.
Qed.

Lemma realloc_block_shrink (old : list T) new_size junk :
  new_size ≤ length old → realloc_block old new_size junk = take new_size old.
Proof.
  intros H. unfold realloc_block.
  replace (new_size - length old) with 0 by lia. cbn. by rewrite app_nil_r.
Qed.

Lemma realloc_block_grow (old : list T) new_size junk :
  length old ≤ new_size →
  realloc_block old new_size junk = old ++ (junk <$> seq (length old) (new_size - length old)).
Proof. intros H. unfold realloc_block. by rewrite take_ge. Qed.

(** ** [PopBack] *)

Lemma PopBack_small_run w this v :
  store w !! this = Some v → size_ v ≤ 1 →
  PopBack this w = Ok true (with_store w (<[this := empty_Vector]> (store w))).
Proof.
  intros H Hn. unfold PopBack.
  rewrite run_bind, (get_size_run _ _ _ H).
  destruct (decide (size_ v ≤ 1)); [|lia].
  by rewrite run_bind, (Clear_run _ _ _ H).
Qed.

Lemma PopBack_large_run w this v :
  store w !! this = Some v → ¬ size_ v ≤ 1 →
  PopBack this w = Resize this (size_ v - 1) w.
Proof.
  intros H Hn. unfold PopBack.
  rewrite run_bind, (get_size_run _ _ _ H).
  by destruct (decide (size_ v ≤ 1)).
Qed.

(** C2: [Resize(m)] on a container holding [v_0 .. v_(n-1)] either returns
    [true], and the container then holds exactly [m] elements, those at the
    indices below [min n m] being the prior ones, or, when the heap refuses
    the request, returns [false] and leaves the block and the size of the
    container (and every other container) as they were. *)
Theorem Resize_exact_or_unchanged w this v m :
  store w !! this = Some v → wf v →
  match heap w (clock w) with
  | Some _ =>
      ∃ w' blk,
        Resize this m w = Ok true w' ∧
        store w' = <[this := mkVector (Some blk) m]> (store w) ∧
        length blk = m ∧
        ∀ i, i < min (size_ v) m → blk !! i = block v !! i
  | None =>
      ∃ w', Resize this m w = Ok false w' ∧ store w' = store w
  end.
Proof.
  intros H Hwf. destruct (heap w (clock w)) as [junk|] eqn:Hh.
  - eexists _, _. split; [by apply Resize_granted|].
    split; [done|]. split; [apply length_realloc_block|].
    intros i Hi. apply lookup_realloc_block_old; unfold wf in Hwf; lia.
  - eexists. split; [by eapply Resize_refused|done].
Qed.

(** C10: [PopBack()] on a container of size 0, and on any container of size
    at most 1, runs [Clear()] and returns [true]: the container is left empty
    with a null block, [size_ - 1] is never computed and the heap receives no
    request. *)
Theorem PopBack_at_most_one w this v :
  store w !! this = Some v → size_ v ≤ 1 →
  PopBack this w = (Clear this;; mret true) w ∧
  ∃ w', PopBack this w = Ok true w' ∧
        store w' = <[this := empty_Vector]> (store w) ∧
        store w' !! this = Some (mkVector None 0) ∧
        clock w' = clock w.
Proof.
  intros H Hn. rewrite (PopBack_small_run _ _ _ H Hn). split.
  - by rewrite run_bind, (Clear_run _ _ _ H).
  - eexists. split; [done|]. split; [done|]. split; [|done].
    by eapply lookup_with_store_eq.
Qed.

(** C5, as the code has it: [PopBack()] on a container of size at most 1
    releases the block, sets the size to 0 and returns [true] without any
    request to the heap; on a larger container it is [Resize(size_ - 1)],
    which keeps the first [size_ - 1] elements and returns [true] when the
    heap grants the request, and returns [false] with the container as it was
    when the heap refuses. *)
Theorem PopBack_spec w this v :
  store w !! this = Some v → wf v →
  if decide (size_ v ≤ 1) then
    PopBack this w = Ok true (with_store w (<[this := empty_Vector]> (store w)))
  else
    PopBack this w = Resize this (size_ v - 1) w ∧
    match heap w (clock w) with
    | Some _ =>
        PopBack this w =
          Ok true (with_store (tick w)
                     (<[this := mkVector (Some (take (size_ v - 1) (block v))) (size_ v - 1)]> (store w)))
    | None => PopBack this w = Ok false (tick w) ∧ store (tick w) = store w
    end.
Proof.
  intros H Hwf. destruct (decide (size_ v ≤ 1)) as [Hn|Hn].
  - by apply (PopBack_small_run _ _ v).
  - rewrite (PopBack_large_run _ _ _ H Hn). split; [done|].
    destruct (heap w (clock w)) as [junk|] eqn:Hh.
    + rewrite (Resize_granted _ _ _ _ _ H Hh).
      rewrite realloc_block_shrink by (unfold wf in Hwf; lia). done.
    + by rewrite (Resize_refused _ _ _ _ H Hh).
Qed.

(** ** The move constructor *)

Lemma Vector_move_run w A a :
  store w !! A = Some a →
  Vector_move A w =
    Ok (length (store w)) (with_store w (<[A := empty_Vector]> (store w) ++ [a])).
Proof.
  intros H. pose proof (lookup_lt_Some _ _ _ H) as HA.
  assert (∀ (σ : list (Vector T)) x, length σ = length (store w) →
            (σ ++ [x]) !! length (store w) = Some x) as Hthis.
  { intros σ x <-. by rewrite list_lookup_middle. }
  assert (∀ (σ : list (Vector T)) x y, length σ = length (store w) →
            <[length (store w) := y]> (σ ++ [x]) = σ ++ [y]) as Hset.
  { intros σ x y <-. by rewrite insert_app_r_alt, Nat.sub_diag by lia. }
  unfold Vector_move, new_object. rewrite run_bind.
  set (B := length (store w)).
  rewrite run_bind.
  erewrite get_data_run by (cbn; by rewrite lookup_app_l).
  rewrite run_bind. erewrite set_data_run by (cbn; by apply Hthis).
  cbn [store with_store]. rewrite Hset by done.
  rewrite run_bind.
  erewrite get_size_run by (cbn; by rewrite lookup_app_l).
  rewrite run_bind. erewrite set_size_run by (cbn; by apply Hthis).
  cbn [store with_store data_ size_ empty_Vector]. rewrite Hset by done.
  rewrite run_bind. erewrite set_data_run by (cbn; by rewrite lookup_app_l).
  cbn [store with_store]. rewrite insert_app_l by done.
  rewrite run_bind.
  erewrite set_size_run
    by (cbn; rewrite lookup_app_l by (by rewrite length_insert); by apply list_lookup_insert_eq).
  cbn [store with_store data_ size_]. rewrite insert_app_l by (by rewrite length_insert).
  rewrite list_insert_insert_eq, run_ret. by destruct a.
Qed.

(** C8: move-constructing [B] from a container [A] leaves [A] with a null
    block and size 0, and gives [B] the block and the size [A] had, so [B]
    holds the original values of [A] at the same indices; no other container
    changes and the heap receives no request. *)
Theorem Vector_move_spec w A a :
  store w !! A = Some a →
  ∃ B w' b,
    Vector_move A w = Ok B w' ∧
    store w' = <[A := empty_Vector]> (store w) ++ [b] ∧
    store w' !! A = Some (mkVector None 0) ∧
    store w' !! B = Some b ∧
    data_ b = data_ a ∧ size_ b = size_ a ∧
    (∀ i, block b !! i = block a !! i) ∧
    clock w' = clock w.
Proof.
  intros H. pose proof (lookup_lt_Some _ _ _ H) as HA.
  rewrite (Vector_move_run _ _ _ H).
  exists (length (store w)), (with_store w (<[A := empty_Vector]> (store w) ++ [a])), a.
  split; [done|]. split; [done|]. cbn [store with_store clock]. split; [|split].
  - rewrite lookup_app_l by (by rewrite length_insert). by apply list_lookup_insert_eq.
  - rewrite <- (length_insert (store w) A empty_Vector). apply list_lookup_middle. done.
  - done.
Qed.

(** ** The copying loop of [Assign] *)

Lemma with_store_id w : with_store w (store w) = w.
Proof. by destruct w. Qed.

Lemma with_store_twice w (σ σ' : list (Vector T)) :
  with_store (with_store w σ) σ' = with_store w σ'.
Proof. done. Qed.

Lemma Assign_loop_exit fuel w this source offset i v s :
  store w !! this = Some v → store w !! source = Some s →
  ¬ (offset + i < size_ v ∧ i < size_ s) →
  Assign_loop (S fuel) this source offset i w = Ok tt w.
Proof.
  intros H Hs Hc. cbn [Assign_loop].
  rewrite run_bind, (get_size_run _ _ _ H), run_bind, (get_size_run _ _ _ Hs).
  by destruct (decide _).
Qed.

Lemma Assign_loop_step fuel w this source offset i v s sblk blk x :
  store w !! this = Some v → store w !! source = Some s →
  offset + i < size_ v → i < size_ s →
  data_ s = Some sblk → sblk !! i = Some x →
  data_ v = Some blk → offset + i < length blk →
  Assign_loop (S fuel) this source offset i w =
    Assign_loop fuel this source offset (S i)
      (with_store w (<[this := mkVector (Some (<[offset + i := x]> blk)) (size_ v)]> (store w))).
Proof.
  intros H Hs Hi Hi' Hd Hx Hb Hlen. cbn [Assign_loop].
  rewrite run_bind, (get_size_run _ _ _ H), run_bind, (get_size_run _ _ _ Hs).
  destruct (decide _) as [_|[]]; [|done].
  rewrite run_bind, (read_elem_run _ _ _ _ _ _ Hs Hd Hx).
  by rewrite run_bind, (write_elem_run _ _ _ _ _ _ H Hb Hlen).
Qed.

Lemma block_lookup_data v i x :
  block v !! i = Some x → ∃ blk, data_ v = Some blk ∧ blk !! i = Some x.
Proof. unfold block. destruct (data_ v); [eauto|done]. Qed.

(** Copying from another container into the cells from [offset] on, when the
    destination has exactly [offset + source.size_] cells. *)
Lemma Assign_loop_distinct k : ∀ fuel i w this source offset s blk,
  this ≠ source →
  store w !! source = Some s → wf s →
  store w !! this = Some (mkVector (Some blk) (offset + size_ s)) →
  length blk = offset + size_ s →
  i + k = size_ s → k < fuel →
  Assign_loop fuel this source offset i w =
    Ok tt (with_store w
             (<[this := mkVector (Some (take (offset + i) blk ++ drop i (block s))) (offset + size_ s)]>
                (store w))).
Proof.
  induction k as [|k IH]; intros fuel i w this source offset s blk Hne Hs Hwf H Hlen Hik Hfuel;
    (destruct fuel as [|fuel]; [lia|]).
  - erewrite Assign_loop_exit by (eauto; cbn; lia).
    rewrite take_ge, drop_ge, app_nil_r by (unfold wf in Hwf; lia).
    by rewrite list_insert_id, with_store_id.
  - assert (is_Some (block s !! i)) as [x Hx].
    { apply lookup_lt_is_Some. unfold wf in Hwf. lia. }
    destruct (block_lookup_data _ _ _ Hx) as (sblk & Hd & Hx').
    erewrite Assign_loop_step; [|done|done|cbn; lia|lia|done|done|done|lia].
    erewrite IH; [|done| |done| |by rewrite length_insert|lia|lia].
    + rewrite with_store_twice. cbn [store with_store size_].
      rewrite list_insert_insert_eq. do 3 f_equal.
      rewrite Nat.add_succ_r.
      erewrite take_S_r by (apply list_lookup_insert_eq; lia).
      rewrite take_insert_ge by lia.
      rewrite <- (assoc_L (++)). by rewrite (drop_S (block s) x i).
    + cbn. by rewrite list_lookup_insert_ne.
    + cbn. apply list_lookup_insert_eq. by eapply lookup_lt_Some.
Qed.

(** Copying a container onto its own second half: [a += a] after the
    reallocation to twice the length. *)
Lemma Assign_loop_self k : ∀ fuel i w this offset blk,
  store w !! this = Some (mkVector (Some blk) (offset + offset)) →
  length blk = offset + offset →
  i + k = offset → k < fuel →
  Assign_loop fuel this this offset i w =
    Ok tt (with_store w
             (<[this := mkVector (Some (take (offset + i) blk ++ drop i (take offset blk))) (offset + offset)]>
                (store w))).
Proof.
  induction k as [|k IH]; intros fuel i w this offset blk H Hlen Hik Hfuel;
    (destruct fuel as [|fuel]; [lia|]).
  - erewrite Assign_loop_exit by (eauto; cbn; lia).
    rewrite take_ge, drop_ge, app_nil_r by (rewrite ?length_take; lia).
    by rewrite list_insert_id, with_store_id.
  - assert (is_Some (blk !! i)) as [x Hx].
    { apply lookup_lt_is_Some. lia. }
    erewrite Assign_loop_step; [|done|done|cbn; lia|cbn; lia|done|done|done|lia].
    erewrite IH; [| |by rewrite length_insert|lia|lia].
    + rewrite with_store_twice. cbn [store with_store size_].
      rewrite list_insert_insert_eq. do 3 f_equal.
      rewrite Nat.add_succ_r.
      erewrite take_S_r by (apply list_lookup_insert_eq; lia).
      rewrite !take_insert_ge by lia.
      rewrite <- (assoc_L (++)).
      by rewrite (drop_S (take offset blk) x i) by (by rewrite lookup_take_lt by lia).
    + cbn. apply list_lookup_insert_eq. by eapply lookup_lt_Some.
Qed.

(** Copying a container onto itself from the start: every cell is assigned
    its own value. *)
Lemma Assign_loop_self_0 k : ∀ fuel i w this blk,
  store w !! this = Some (mkVector (Some blk) (length blk)) →
  i + k = length blk → k < fuel →
  Assign_loop fuel this this 0 i w = Ok tt w.
Proof.
  induction k as [|k IH]; intros fuel i w this blk H Hik Hfuel;
    (destruct fuel as [|fuel]; [lia|]).
  - erewrite Assign_loop_exit by (eauto; cbn; lia). done.
  - assert (is_Some (blk !! i)) as [x Hx].
    { apply lookup_lt_is_Some. lia. }
    erewrite Assign_loop_step; [|done|done|cbn; lia|cbn; lia|done|done|done|cbn; lia].
    cbn [Nat.add size_]. rewrite (list_insert_id blk) by done.
    rewrite list_insert_id, with_store_id by done.
    eapply IH; [done|lia|lia].
Qed.

(** ** [PushBack], [Copy] and [AddValues] *)

Lemma PushBack_granted w this v value junk :
  store w !! this = Some v → wf v → heap w (clock w) = Some junk →
  PushBack this value w =
    Ok true (with_store (tick w)
               (<[this := mkVector (Some (block v ++ [value])) (size_ v + 1)]> (store w))).
Proof.
  intros H Hwf Hh. unfold wf in Hwf. unfold PushBack.
  rewrite run_bind, (get_size_run _ _ _ H), run_bind, (Resize_granted _ _ _ _ _ H Hh).
  rewrite run_bind. erewrite get_size_run by (by eapply lookup_with_store_eq).
  cbn [size_]. rewrite Nat.add_1_r, run_bind.
  erewrite write_elem_run;
    [|by eapply lookup_with_store_eq|done|rewrite length_realloc_block; lia].
  rewrite with_store_twice. cbn [store with_store tick size_].
  rewrite list_insert_insert_eq, run_ret. do 4 f_equal.
  rewrite realloc_block_grow by lia.
  replace (S (size_ v) - length (block v)) with 1 by lia. cbn [seq fmap list_fmap].
  rewrite insert_app_r_alt by lia. by replace (size_ v - length (block v)) with 0 by lia.
Qed.

Lemma PushBack_refused w this v value :
  store w !! this = Some v → heap w (clock w) = None →
  PushBack this value w = Ok false (tick w).
Proof.
  intros H Hh. unfold PushBack.
  by rewrite run_bind, (get_size_run _ _ _ H), run_bind, (Resize_refused _ _ _ _ H Hh).
Qed.

Lemma Copy_granted w this source v s junk :
  store w !! this = Some v → store w !! source = Some s → wf v → wf s →
  heap w (clock w) = Some junk →
  Copy this source w =
    Ok true (with_store (tick w) (<[this := mkVector (Some (block s)) (size_ s)]> (store w))).
Proof.
  intros H Hs Hwf Hwfs Hh. unfold Copy.
  rewrite run_bind, (get_size_run _ _ _ Hs), run_bind, (Resize_granted _ _ _ _ _ H Hh).
  rewrite run_bind. unfold Assign. rewrite run_bind.
  destruct (decide (this = source)) as [->|Hne].
  - assert (v = s) as -> by congruence. unfold wf in Hwfs.
    rewrite realloc_block_shrink, take_ge by lia.
    erewrite get_size_run by (by eapply lookup_with_store_eq). cbn [size_].
    erewrite (Assign_loop_self_0 (size_ s));
      [done|rewrite Hwfs; by eapply lookup_with_store_eq|lia|lia].
  - erewrite get_size_run by (cbn; by rewrite list_lookup_insert_ne).
    erewrite (Assign_loop_distinct (size_ s) _ 0 _ this source 0);
      [|done|cbn; by rewrite list_lookup_insert_ne|done
       |by eapply lookup_with_store_eq|by rewrite length_realloc_block|lia|lia].
    rewrite with_store_twice. cbn [store with_store tick].
    by rewrite list_insert_insert_eq.
Qed.

Lemma Copy_refused w this source v s :
  store w !! this = Some v → store w !! source = Some s → heap w (clock w) = None →
  Copy this source w = Ok false (tick w).
Proof.
  intros H Hs Hh. unfold Copy.
  by rewrite run_bind, (get_size_run _ _ _ Hs), run_bind, (Resize_refused _ _ _ _ H Hh).
Qed.

Lemma AddValues_granted w A B a b junk :
  store w !! A = Some a → store w !! B = Some b → wf a → wf b →
  heap w (clock w) = Some junk →
  AddValues A B w =
    Ok true (with_store (tick w)
               (<[A := mkVector (Some (block a ++ block b)) (size_ a + size_ b)]> (store w))).
Proof.
  intros HA HB Hwfa Hwfb Hh. unfold AddValues.
  rewrite run_bind, (get_size_run _ _ _ HA), run_bind, (get_size_run _ _ _ HB).
  rewrite run_bind, (Resize_granted _ _ _ _ _ HA Hh).
  rewrite run_bind. unfold Assign. rewrite run_bind.
  unfold wf in Hwfa, Hwfb.
  destruct (decide (A = B)) as [->|Hne].
  - assert (a = b) as -> by congruence.
    erewrite get_size_run by (by eapply lookup_with_store_eq). cbn [size_].
    erewrite (Assign_loop_self (size_ b) _ 0);
      [|by eapply lookup_with_store_eq|by rewrite length_realloc_block|lia|lia].
    rewrite with_store_twice. cbn [store with_store tick].
    rewrite list_insert_insert_eq, Nat.add_0_r, realloc_block_grow by lia.
    by rewrite take_app_length', drop_0 by done.
  - erewrite get_size_run by (cbn; by rewrite list_lookup_insert_ne).
    erewrite (Assign_loop_distinct (size_ b) _ 0 _ A B (size_ a));
      [|done|cbn; by rewrite list_lookup_insert_ne|done
       |by eapply lookup_with_store_eq|by rewrite length_realloc_block|lia|lia].
    rewrite with_store_twice. cbn [store with_store tick].
    rewrite list_insert_insert_eq, Nat.add_0_r, realloc_block_grow by lia.
    by rewrite take_app_length', drop_0 by done.
Qed.

Lemma AddValues_refused w A B a b :
  store w !! A = Some a → store w !! B = Some b → heap w (clock w) = None →
  AddValues A B w = Ok false (tick w).
Proof.
  intros HA HB Hh. unfold AddValues.
  rewrite run_bind, (get_size_run _ _ _ HA), run_bind, (get_size_run _ _ _ HB).
  by rewrite run_bind, (Resize_refused _ _ _ _ HA Hh).
Qed.

(** ** Appending and assigning containers *)

(** C6, as the code has it: when the heap grants the one request [A += B]
    makes, [A] afterwards holds its prior elements followed by the elements
    of [B] in order, its size being the sum of the two sizes, also when [B]
    is [A] itself; when the heap refuses, [A] is left as it was.  Either way
    the heap receives exactly one request, for the full new length. *)
Theorem operator_add_assign_spec w A B a b :
  store w !! A = Some a → store w !! B = Some b → wf a → wf b →
  ∃ w', operator_add_assign A B w = Ok tt w' ∧
        clock w' = S (clock w) ∧
        match heap w (clock w) with
        | Some _ =>
            ∃ blk, store w' = <[A := mkVector (Some blk) (size_ a + size_ b)]> (store w) ∧
                   blk = block a ++ block b ∧
                   (∀ i, i < size_ a → blk !! i = block a !! i) ∧
                   (∀ j, j < size_ b → blk !! (size_ a + j) = block b !! j)
        | None => store w' = store w
        end.
Proof.
  intros HA HB Hwfa Hwfb. unfold operator_add_assign. rewrite run_bind.
  destruct (heap w (clock w)) as [junk|] eqn:Hh.
  - rewrite (AddValues_granted _ _ _ _ _ _ HA HB Hwfa Hwfb Hh), run_ret.
    eexists. split; [done|]. split; [done|].
    eexists. split; [done|]. split; [done|]. unfold wf in Hwfa, Hwfb. split.
    + intros i Hi. by rewrite lookup_app_l by lia.
    + intros j Hj. rewrite lookup_app_r by lia. f_equal. lia.
  - rewrite (AddValues_refused _ _ _ _ _ HA HB Hh), run_ret.
    eexists. by split.
Qed.

(** C9: copy-assigning a container to itself leaves it with size 0 and no
    element, whatever it held: [Clear()] empties it first, and [Copy] then
    copies from the cleared container. *)
Theorem operator_assign_self w this v :
  store w !! this = Some v →
  ∃ w1 w' d,
    Clear this w = Ok tt w1 ∧ store w1 !! this = Some empty_Vector ∧
    operator_assign this this w = (Copy this this;; mret tt) w1 ∧
    operator_assign this this w = Ok tt w' ∧
    store w' = <[this := mkVector d 0]> (store w) ∧
    default [] d = [].
Proof.
  intros H. unfold operator_assign.
  rewrite (run_bind (Clear this)), (Clear_run _ _ _ H).
  set (w1 := with_store w (<[this:=empty_Vector]> (store w))).
  assert (store w1 !! this = Some empty_Vector) as H1 by (by eapply lookup_with_store_eq).
  exists w1. rewrite run_bind.
  destruct (heap w1 (clock w1)) as [junk|] eqn:Hh.
  - rewrite (Copy_granted _ _ _ _ _ _ H1 H1 eq_refl eq_refl Hh), run_ret.
    eexists _, (Some []). repeat split; try done.
    cbn. by rewrite list_insert_insert_eq.
  - rewrite (Copy_refused _ _ _ _ _ H1 H1 Hh), run_ret.
    eexists _, None. repeat split; try done.
Qed.

(** ** Growing and shrinking by one element at a time *)

(** What one [PushBack] does to a well-formed container, granted or not. *)
Lemma PushBack_total w this v value :
  store w !! this = Some v → wf v →
  ∃ b w' v', PushBack this value w = Ok b w' ∧
             store w' = <[this := v']> (store w) ∧ wf v' ∧
             (b = true ∨ v' = v).
Proof.
  intros H Hwf. destruct (heap w (clock w)) as [junk|] eqn:Hh.
  - rewrite (PushBack_granted _ _ _ _ _ H Hwf Hh).
    eexists _, _, _. split; [done|]. split; [done|]. split; [|by left].
    unfold wf in *. cbn. rewrite length_app. cbn. lia.
  - rewrite (PushBack_refused _ _ _ _ H Hh).
    exists false, (tick w), v. split; [done|]. split; [|by auto].
    cbn. by rewrite list_insert_id.
Qed.

(** What one [PopBack] does to a well-formed container, granted or not. *)
Lemma PopBack_total w this v :
  store w !! this = Some v → wf v →
  ∃ b w' v', PopBack this w = Ok b w' ∧
             store w' = <[this := v']> (store w) ∧ wf v' ∧
             (if b then size_ v' = size_ v - 1 ∧ (size_ v ≤ 1 → v' = empty_Vector)
              else v' = v).
Proof.
  intros H Hwf. destruct (decide (size_ v ≤ 1)) as [Hn|Hn].
  - rewrite (PopBack_small_run _ _ _ H Hn).
    exists true, (with_store w (<[this:=empty_Vector]> (store w))), empty_Vector.
    repeat split; try done. cbn. lia.
  - rewrite (PopBack_large_run _ _ _ H Hn).
    destruct (heap w (clock w)) as [junk|] eqn:Hh.
    + rewrite (Resize_granted _ _ _ _ _ H Hh). eexists true, _, _.
      split; [done|]. split; [done|].
      unfold wf in *. cbn. rewrite length_realloc_block. split; [done|]. split; [done|lia].
    + rewrite (Resize_refused _ _ _ _ H Hh). exists false, (tick w), v.
      split; [done|]. split; [|done]. cbn. by rewrite list_insert_id.
Qed.

Lemma PushBack_all_run values : ∀ w this v,
  store w !! this = Some v → wf v →
  ∃ bs w' v', PushBack_all this values w = Ok bs w' ∧
              store w' = <[this := v']> (store w) ∧ wf v' ∧
              size_ v' ≤ size_ v + length values ∧
              (values = [] → v' = v).
Proof.
  induction values as [|value values IH]; intros w this v H Hwf.
  - exists [], w, v. cbn. rewrite list_insert_id by done. repeat split; try done. lia.
  - destruct (PushBack_total _ _ _ value H Hwf) as (b & w1 & v1 & Hrun & Hst & Hwf1 & Hb).
    assert (store w1 !! this = Some v1) as H1.
    { rewrite Hst. apply list_lookup_insert_eq. by eapply lookup_lt_Some. }
    destruct (IH _ _ _ H1 Hwf1) as (bs & w' & v' & Hrun' & Hst' & Hwf' & Hsz & _).
    exists (b :: bs), w', v'. cbn [PushBack_all].
    rewrite run_bind, Hrun, run_bind, Hrun', run_ret. split; [done|].
    split; [by rewrite Hst', Hst, list_insert_insert_eq|]. split; [done|].
    split; [|done]. cbn [length].
    assert (size_ v1 ≤ size_ v + 1); [|lia].
    destruct Hb as [->| ->]; [|lia].
    destruct (heap w (clock w)) as [junk|] eqn:Hh.
    + rewrite (PushBack_granted _ _ _ _ _ H Hwf Hh) in Hrun.
      injection Hrun as Hw1. subst w1. cbn in H1.
      rewrite list_lookup_insert_eq in H1 by (by eapply lookup_lt_Some).
      injection H1 as <-. done.
    + rewrite (PushBack_refused _ _ _ _ H Hh) in Hrun. done.
Qed.

Lemma PopBack_times_total n : ∀ w this v,
  store w !! this = Some v → wf v →
  ∃ bs w' v', PopBack_times n this w = Ok bs w' ∧
              store w' = <[this := v']> (store w) ∧ wf v'.
Proof.
  induction n as [|n IH]; intros w this v H Hwf.
  - exists [], w, v. cbn. by rewrite list_insert_id.
  - destruct (PopBack_total _ _ _ H Hwf) as (b & w1 & v1 & Hrun & Hst & Hwf1 & _).
    assert (store w1 !! this = Some v1) as H1.
    { rewrite Hst. apply list_lookup_insert_eq. by eapply lookup_lt_Some. }
    destruct (IH _ _ _ H1 Hwf1) as (bs & w' & v' & Hrun' & Hst' & Hwf').
    exists (b :: bs), w', v'. cbn [PopBack_times].
    rewrite run_bind, Hrun, run_bind, Hrun', run_ret. split; [done|].
    split; [by rewrite Hst', Hst, list_insert_insert_eq|done].
Qed.

Lemma PopBack_times_run n : ∀ w this v,
  store w !! this = Some v → wf v → size_ v ≤ n → (n = 0 → v = empty_Vector) →
  ∃ bs w', PopBack_times n this w = Ok bs w' ∧
           (Forall (λ b, b = true) bs → store w' = <[this := empty_Vector]> (store w)).
Proof.
  induction n as [|n IH]; intros w this v H Hwf Hsz Hz.
  - exists [], w. split; [done|]. intros _. rewrite list_insert_id; [done|].
    by rewrite <- Hz.
  - destruct (PopBack_total _ _ _ H Hwf) as (b & w1 & v1 & Hrun & Hst & Hwf1 & Hb).
    assert (store w1 !! this = Some v1) as H1.
    { rewrite Hst. apply list_lookup_insert_eq. by eapply lookup_lt_Some. }
    cbn [PopBack_times]. destruct b.
    + destruct Hb as [Hsz1 Hsmall].
      destruct (IH _ _ _ H1 Hwf1) as (bs & w' & Hrun' & Hall); [lia|intros ->; apply Hsmall; lia|].
      exists (true :: bs), w'. rewrite run_bind, Hrun, run_bind, Hrun', run_ret.
      split; [done|]. intros Hbs. rewrite Hall by (by inversion Hbs).
      by rewrite Hst, list_insert_insert_eq.
    + destruct (PopBack_times_total n _ _ _ H1 Hwf1) as (bs & w' & v' & Hrun' & _).
      exists (false :: bs), w'. rewrite run_bind, Hrun, run_bind, Hrun', run_ret.
      split; [done|]. intros Hbs. by inversion Hbs.
Qed.

(** C7, as the code has it: starting from the empty container, any sequence
    of [PushBack] calls followed by as many [PopBack] calls runs to its end,
    and when each of the [PopBack] calls returned [true] the container is
    back in the empty state, with size 0 and a null block, whether or not the
    [PushBack] calls succeeded. *)
Theorem PushBack_PopBack_round_trip w this values :
  store w !! this = Some empty_Vector →
  ∃ pushed popped w',
    (pushed ← PushBack_all this values;
     popped ← PopBack_times (length values) this;
     mret (pushed, popped)) w = Ok (pushed, popped) w' ∧
    (Forall (λ b, b = true) popped →
       store w' = store w ∧ store w' !! this = Some (mkVector None 0)).
Proof.
  intros H.
  destruct (PushBack_all_run values _ _ _ H eq_refl) as (pushed & w1 & v1 & Hrun & Hst & Hwf1 & Hsz & Hnil).
  assert (store w1 !! this = Some v1) as H1.
  { rewrite Hst. apply list_lookup_insert_eq. by eapply lookup_lt_Some. }
  destruct (PopBack_times_run (length values) _ _ _ H1 Hwf1) as (popped & w' & Hrun' & Hall).
  { cbn in Hsz. lia. }
  { intros Hlen. apply Hnil. by apply nil_length_inv. }
  exists pushed, popped, w'. rewrite run_bind, Hrun, run_bind, Hrun', run_ret.
  split; [done|]. intros Hpop. rewrite (Hall Hpop), Hst, list_insert_insert_eq.
  rewrite list_insert_id by done. done.
Qed.

(** ** Construction *)

Lemma Assign_values_loop_run k : ∀ fuel i w this (values : list T) offset blk,
  store w !! this = Some (mkVector (Some blk) (offset + length values)) →
  length blk = offset + length values →
  i + k = length values → k < fuel →
  Assign_values_loop fuel this values offset i w =
    Ok tt (with_store w
             (<[this := mkVector (Some (take (offset + i) blk ++ drop i values)) (offset + length values)]>
                (store w))).
Proof.
  induction k as [|k IH]; intros fuel i w this values offset blk H Hlen Hik Hfuel;
    (destruct fuel as [|fuel]; [lia|]); cbn [Assign_values_loop];
    rewrite run_bind, (get_size_run _ _ _ H); cbn [size_].
  - destruct (decide _) as [[]|_]; [lia|].
    rewrite take_ge, drop_ge, app_nil_r by lia.
    by rewrite list_insert_id, with_store_id.
  - destruct (decide _) as [_|[]]; [|lia].
    assert (is_Some (values !! i)) as [x Hx].
    { apply lookup_lt_is_Some. lia. }
    rewrite Hx, run_bind.
    erewrite write_elem_run; [|done|done|lia].
    erewrite IH; [| |by rewrite length_insert|lia|lia].
    + rewrite with_store_twice. cbn [store with_store size_].
      rewrite list_insert_insert_eq. do 3 f_equal.
      rewrite Nat.add_succ_r.
      erewrite take_S_r by (apply list_lookup_insert_eq; lia).
      rewrite take_insert_ge by lia.
      rewrite <- (assoc_L (++)). by rewrite (drop_S values x i).
    + cbn. apply list_lookup_insert_eq. by eapply lookup_lt_Some.
Qed.

Lemma AddValues_values_granted w this v (values : list T) junk :
  store w !! this = Some v → wf v → heap w (clock w) = Some junk →
  AddValues_values this values w =
    Ok true (with_store (tick w)
               (<[this := mkVector (Some (block v ++ values)) (size_ v + length values)]> (store w))).
Proof.
  intros H Hwf Hh. unfold wf in Hwf. unfold AddValues_values.
  rewrite run_bind, (get_size_run _ _ _ H), run_bind, (Resize_granted _ _ _ _ _ H Hh).
  rewrite run_bind. unfold Assign_values.
  erewrite (Assign_values_loop_run (length values) _ 0);
    [|by eapply lookup_with_store_eq|by rewrite length_realloc_block|lia|lia].
  rewrite with_store_twice. cbn [store with_store tick].
  rewrite list_insert_insert_eq, Nat.add_0_r, realloc_block_grow by lia.
  by rewrite take_app_length', drop_0 by done.
Qed.

Lemma AddValues_values_refused w this v (values : list T) :
  store w !! this = Some v → heap w (clock w) = None →
  AddValues_values this values w = Ok false (tick w).
Proof.
  intros H Hh. unfold AddValues_values.
  by rewrite run_bind, (get_size_run _ _ _ H), run_bind, (Resize_refused _ _ _ _ H Hh).
Qed.

Lemma lookup_fresh (σ : list (Vector T)) x : (σ ++ [x]) !! length σ = Some x.
Proof. by rewrite list_lookup_middle. Qed.

Lemma insert_fresh (σ : list (Vector T)) x y : <[length σ := y]> (σ ++ [x]) = σ ++ [y].
Proof. by rewrite insert_app_r_alt, Nat.sub_diag by lia. Qed.

(** The constructors: the new object holds what was asked for, or, when the
    heap refuses, is empty; the objects that existed are as they were. *)
Lemma Vector_sized_run w size :
  ∃ w' x, Vector_sized size w = Ok (length (store w)) w' ∧ store w' = store w ++ [x] ∧
          (x = empty_Vector ∨ size_ x = size ∧ length (block x) = size).
Proof.
  unfold Vector_sized, new_object. rewrite run_bind, run_bind.
  set (w1 := with_store w (store w ++ [empty_Vector])).
  assert (store w1 !! length (store w) = Some empty_Vector) as H1 by apply lookup_fresh.
  destruct (heap w1 (clock w1)) as [junk|] eqn:Hh.
  - rewrite (Resize_granted _ _ _ _ _ H1 Hh), run_ret. cbn [store with_store tick w1].
    rewrite insert_fresh. eexists _, _. split; [done|]. split; [done|]. right.
    split; [done|]. cbn. apply length_realloc_block.
  - rewrite (Resize_refused _ _ _ _ H1 Hh), run_ret.
    eexists _, _. split; [done|]. split; [done|]. by left.
Qed.

Lemma Vector_copy_run w source s :
  store w !! source = Some s → wf s →
  ∃ w' x, Vector_copy source w = Ok (length (store w)) w' ∧ store w' = store w ++ [x] ∧
          (x = empty_Vector ∨ x = mkVector (Some (block s)) (size_ s)).
Proof.
  intros Hs Hwf. unfold Vector_copy, new_object. rewrite run_bind, run_bind.
  set (w1 := with_store w (store w ++ [empty_Vector])).
  assert (store w1 !! length (store w) = Some empty_Vector) as H1 by apply lookup_fresh.
  assert (store w1 !! source = Some s) as Hs1.
  { cbn. rewrite lookup_app_l; [done|]. by eapply lookup_lt_Some. }
  destruct (heap w1 (clock w1)) as [junk|] eqn:Hh.
  - rewrite (Copy_granted _ _ _ _ _ _ H1 Hs1 eq_refl Hwf Hh), run_ret.
    cbn [store with_store tick w1]. rewrite insert_fresh.
    eexists _, _. split; [done|]. split; [done|]. by right.
  - rewrite (Copy_refused _ _ _ _ _ H1 Hs1 Hh), run_ret.
    eexists _, _. split; [done|]. split; [done|]. by left.
Qed.

Lemma Vector_values_run w (values : list T) :
  ∃ w' x, Vector_values values w = Ok (length (store w)) w' ∧ store w' = store w ++ [x] ∧
          (x = empty_Vector ∨ x = mkVector (Some values) (length values)).
Proof.
  unfold Vector_values, new_object. rewrite run_bind, run_bind.
  set (w1 := with_store w (store w ++ [empty_Vector])).
  assert (store w1 !! length (store w) = Some empty_Vector) as H1 by apply lookup_fresh.
  destruct (heap w1 (clock w1)) as [junk|] eqn:Hh.
  - rewrite (Resize_granted _ _ _ _ _ H1 Hh), run_bind. unfold Assign_values.
    erewrite (Assign_values_loop_run (length values) _ 0 _ _ values 0);
      [|by eapply lookup_with_store_eq|by rewrite length_realloc_block|lia|lia].
    rewrite with_store_twice, run_ret. cbn [store with_store tick w1].
    rewrite list_insert_insert_eq, insert_fresh.
    eexists _, _. split; [done|]. split; [done|]. right. by rewrite drop_0.
  - rewrite (Resize_refused _ _ _ _ H1 Hh), run_bind, run_ret, run_ret.
    eexists _, _. split; [done|]. split; [done|]. by left.
Qed.

(** ** Failure and the state of the container *)

Lemma operator_assign_run w this source v s :
  store w !! this = Some v → store w !! source = Some s → wf s →
  ∃ w', operator_assign this source w = Ok tt w' ∧
        match heap w (clock w) with
        | Some _ => this ≠ source →
                    store w' = <[this := mkVector (Some (block s)) (size_ s)]> (store w)
        | None => store w' = <[this := empty_Vector]> (store w)
        end.
Proof.
  intros H Hs Hwf. unfold operator_assign.
  rewrite (run_bind (Clear this)), (Clear_run _ _ _ H).
  set (w1 := with_store w (<[this:=empty_Vector]> (store w))).
  assert (store w1 !! this = Some empty_Vector) as H1 by (by eapply lookup_with_store_eq).
  rewrite run_bind. change (heap w (clock w)) with (heap w1 (clock w1)).
  destruct (heap w1 (clock w1)) as [junk|] eqn:Hh.
  - destruct (decide (this = source)) as [->|Hne].
    + rewrite (Copy_granted _ _ _ _ _ _ H1 H1 eq_refl eq_refl Hh), run_ret.
      eexists. by split.
    + assert (store w1 !! source = Some s) as Hs1 by (cbn; by rewrite list_lookup_insert_ne).
      rewrite (Copy_granted _ _ _ _ _ _ H1 Hs1 eq_refl Hwf Hh), run_ret.
      eexists. split; [done|]. intros _. cbn. by rewrite list_insert_insert_eq.
  - assert (∃ s', store w1 !! source = Some s') as [s' Hs1].
    { destruct (decide (this = source)) as [->|Hne]; [by eauto|].
      exists s. cbn. by rewrite list_lookup_insert_ne. }
    rewrite (Copy_refused _ _ _ _ _ H1 Hs1 Hh), run_ret.
    eexists. by split.
Qed.

(** C4, as the code has it: on well-formed containers every operation runs to
    its end; [Resize], [PushBack], [PopBack], [Copy] and [AddValues] either
    return [true] or leave every container as it was; [Clear] always leaves
    the container empty; [+=] appends or changes nothing; a constructor
    gives the new object what was asked for or leaves it empty; but the
    assignment from a container clears the destination first, so when the
    heap refuses the copy the destination is left empty, not as it was. *)
Theorem operations_on_failure w this source v s (new_size : nat) (value : T) (values : list T) :
  store w !! this = Some v → store w !! source = Some s → wf v → wf s →
  succeeds_or_unchanged (Resize this new_size) w ∧
  succeeds_or_unchanged (PushBack this value) w ∧
  succeeds_or_unchanged (PopBack this) w ∧
  succeeds_or_unchanged (Copy this source) w ∧
  succeeds_or_unchanged (AddValues this source) w ∧
  succeeds_or_unchanged (AddValues_values this values) w ∧
  (∃ w', Clear this w = Ok tt w' ∧ store w' = <[this := empty_Vector]> (store w)) ∧
  (∃ w', operator_add_assign this source w = Ok tt w' ∧
         (store w' = <[this := mkVector (Some (block v ++ block s)) (size_ v + size_ s)]> (store w)
          ∨ store w' = store w)) ∧
  (∃ w' x, Vector_sized new_size w = Ok (length (store w)) w' ∧ store w' = store w ++ [x] ∧
           (x = empty_Vector ∨ size_ x = new_size ∧ length (block x) = new_size)) ∧
  (∃ w' x, Vector_values values w = Ok (length (store w)) w' ∧ store w' = store w ++ [x] ∧
           (x = empty_Vector ∨ x = mkVector (Some values) (length values))) ∧
  (∃ w' x, Vector_copy source w = Ok (length (store w)) w' ∧ store w' = store w ++ [x] ∧
           (x = empty_Vector ∨ x = mkVector (Some (block s)) (size_ s))) ∧
  (∃ w', operator_assign this source w = Ok tt w' ∧
         match heap w (clock w) with
         | Some _ => this ≠ source →
                     store w' = <[this := mkVector (Some (block s)) (size_ s)]> (store w)
         | None => store w' = <[this := empty_Vector]> (store w)
         end).
Proof.
  intros H Hs Hwf Hwfs. unfold succeeds_or_unchanged.
  repeat match goal with |- _ ∧ _ => split end.
  - destruct (heap w (clock w)) as [junk|] eqn:Hh.
    + rewrite (Resize_granted _ _ _ _ _ H Hh). eauto.
    + rewrite (Resize_refused _ _ _ _ H Hh). eauto.
  - destruct (heap w (clock w)) as [junk|] eqn:Hh.
    + rewrite (PushBack_granted _ _ _ _ _ H Hwf Hh). eauto.
    + rewrite (PushBack_refused _ _ _ _ H Hh). eauto.
  - destruct (PopBack_total _ _ _ H Hwf) as (b & w' & v' & -> & Hst & _ & Hb).
    exists b, w'. split; [done|]. destruct b; [by left|right].
    subst v'. by rewrite Hst, list_insert_id.
  - destruct (heap w (clock w)) as [junk|] eqn:Hh.
    + rewrite (Copy_granted _ _ _ _ _ _ H Hs Hwf Hwfs Hh). eauto.
    + rewrite (Copy_refused _ _ _ _ _ H Hs Hh). eauto.
  - destruct (heap w (clock w)) as [junk|] eqn:Hh.
    + rewrite (AddValues_granted _ _ _ _ _ _ H Hs Hwf Hwfs Hh). eauto.
    + rewrite (AddValues_refused _ _ _ _ _ H Hs Hh). eauto.
  - destruct (heap w (clock w)) as [junk|] eqn:Hh.
    + rewrite (AddValues_values_granted _ _ _ _ _ H Hwf Hh). eauto.
    + rewrite (AddValues_values_refused _ _ _ _ H Hh). eauto.
  - rewrite (Clear_run _ _ _ H). eauto.
  - unfold operator_add_assign. rewrite run_bind.
    destruct (heap w (clock w)) as [junk|] eqn:Hh.
    + rewrite (AddValues_granted _ _ _ _ _ _ H Hs Hwf Hwfs Hh), run_ret. eauto.
    + rewrite (AddValues_refused _ _ _ _ _ H Hs Hh), run_ret. eauto.
  - apply Vector_sized_run.
  - apply Vector_values_run.
  - by apply Vector_copy_run.
  - by eapply operator_assign_run.
Qed.

(** ** The class invariant *)

Lemma preserves_wf_ret {A} (a : A) : preserves_wf (mret a : M T A).
Proof. intros w a' w' Hwf Hrun. by injection Hrun as _ <-. Qed.

Lemma preserves_wf_bind {A B} (m : M T A) (k : A → M T B) :
  preserves_wf m → (∀ a, preserves_wf (k a)) → preserves_wf (m ≫= k).
Proof.
  intros Hm Hk w b w' Hwf. rewrite run_bind.
  destruct (m w) as [a w1| |] eqn:Hrun; [|done..].
  apply Hk. by eapply Hm.
Qed.

Lemma preserves_wf_get_size_ this : preserves_wf (get_size_ (T:=T) this).
Proof.
  intros w a w' Hwf. unfold get_size_, deref. rewrite run_bind.
  destruct (store w !! this); [|done]. by intros [= _ <-].
Qed.

Lemma preserves_wf_read_elem this i : preserves_wf (read_elem (T:=T) this i).
Proof.
  intros w a w' Hwf. unfold read_elem, get_data_, deref. rewrite !run_bind.
  destruct (store w !! this) as [v|]; [|done]. cbn.
  destruct (data_ v) as [blk|]; [|done]. destruct (blk !! i); [|done].
  by intros [= _ <-].
Qed.

Lemma preserves_wf_write_elem this i (x : T) : preserves_wf (write_elem this i x).
Proof.
  intros w a w' Hwf. destruct (store w !! this) as [v|] eqn:H.
  - destruct (data_ v) as [blk|] eqn:Hd.
    + destruct (decide (i < length blk)) as [Hi|Hi].
      * rewrite (write_elem_run _ _ _ _ _ _ H Hd Hi). intros [= _ <-]. cbn.
        apply Forall_insert; [done|].
        pose proof (Forall_lookup_1 _ _ _ _ Hwf H) as Hv.
        unfold wf, block in *. rewrite Hd in Hv. cbn in *. by rewrite length_insert.
      * unfold write_elem. rewrite run_bind, (get_data_run _ _ _ H), Hd.
        by destruct (decide _).
    + unfold write_elem. by rewrite run_bind, (get_data_run _ _ _ H), Hd.
  - unfold write_elem, get_data_, deref. by rewrite !run_bind, H.
Qed.

Lemma preserves_wf_Clear this : preserves_wf (Clear (T:=T) this).
Proof.
  intros w a w' Hwf. destruct (store w !! this) as [v|] eqn:H.
  - rewrite (Clear_run _ _ _ H). intros [= _ <-]. cbn. by apply Forall_insert.
  - unfold Clear, get_data_, deref. by rewrite !run_bind, H.
Qed.

Lemma preserves_wf_Resize this new_size : preserves_wf (Resize (T:=T) this new_size).
Proof.
  intros w a w' Hwf. destruct (store w !! this) as [v|] eqn:H.
  - destruct (heap w (clock w)) as [junk|] eqn:Hh.
    + rewrite (Resize_granted _ _ _ _ _ H Hh). intros [= _ <-]. cbn.
      apply Forall_insert; [done|]. apply length_realloc_block.
    + rewrite (Resize_refused _ _ _ _ H Hh). by intros [= _ <-].
  - unfold Resize, get_data_, deref. by rewrite !run_bind, H.
Qed.

Lemma preserves_wf_new_object : preserves_wf (new_object (T:=T)).
Proof.
  intros w a w' Hwf [= _ <-]. cbn. apply Forall_app. split; [done|].
  by apply Forall_singleton.
Qed.

Ltac preserves_wf_steps :=
  repeat first
    [ apply preserves_wf_ret
    | apply preserves_wf_get_size_
    | apply preserves_wf_read_elem
    | apply preserves_wf_write_elem
    | apply preserves_wf_Clear
    | apply preserves_wf_Resize
    | apply preserves_wf_new_object
    | done
    | apply preserves_wf_bind; [|intros ?]
    | match goal with
      | |- preserves_wf (if ?b then _ else _) => destruct b
      | |- preserves_wf (match ?o with _ => _ end) => destruct o
      end ].

Lemma preserves_wf_Assign this source offset : preserves_wf (Assign (T:=T) this source offset).
Proof.
  unfold Assign. apply preserves_wf_bind; [preserves_wf_steps|]. intros m.
  generalize (S m) 0. intros fuel.
  induction fuel as [|fuel IH]; intros i; cbn [Assign_loop]; [done|].
  preserves_wf_steps.
Qed.

Lemma preserves_wf_Assign_values this (values : list T) offset :
  preserves_wf (Assign_values this values offset).
Proof.
  unfold Assign_values. generalize (S (length values)) 0. intros fuel.
  induction fuel as [|fuel IH]; intros i; cbn [Assign_values_loop]; [done|].
  preserves_wf_steps.
Qed.

Lemma preserves_wf_Copy this source : preserves_wf (Copy (T:=T) this source).
Proof. pose proof preserves_wf_Assign. unfold Copy. preserves_wf_steps. Qed.

Lemma preserves_wf_Vector_values (values : list T) : preserves_wf (Vector_values values).
Proof. pose proof preserves_wf_Assign_values. unfold Vector_values. preserves_wf_steps. Qed.

Lemma preserves_wf_Vector_move source : preserves_wf (Vector_move (T:=T) source).
Proof.
  intros w a w' Hwf. destruct (store w !! source) as [s|] eqn:Hs.
  - rewrite (Vector_move_run _ _ _ Hs). intros [= _ <-].
    cbn [store with_store]. apply Forall_app. split.
    + by apply Forall_insert.
    + apply Forall_singleton. by eapply Forall_lookup_1.
  - apply lookup_ge_None_1 in Hs.
    unfold Vector_move, new_object. rewrite run_bind, run_bind.
    destruct (decide (source = length (store w))) as [->|Hne].
    + (* the source is the object under construction *)
      erewrite get_data_run by apply lookup_fresh.
      rewrite run_bind. erewrite set_data_run by apply lookup_fresh.
      cbn [store with_store data_ size_ empty_Vector]. rewrite insert_fresh.
      rewrite run_bind. erewrite get_size_run by apply lookup_fresh.
      rewrite run_bind. erewrite set_size_run by apply lookup_fresh.
      cbn [store with_store data_ size_]. rewrite insert_fresh.
      rewrite run_bind. erewrite set_data_run by apply lookup_fresh.
      cbn [store with_store data_ size_]. rewrite insert_fresh.
      rewrite run_bind. erewrite set_size_run by apply lookup_fresh.
      cbn [store with_store data_ size_]. rewrite insert_fresh, run_ret.
      intros [= _ <-]. cbn. apply Forall_app. split; [done|]. by apply Forall_singleton.
    + unfold get_data_, deref. rewrite run_bind. cbn.
      rewrite lookup_ge_None_2; [done|]. rewrite length_app. cbn. lia.
Qed.

(** X1: every public operation that completes keeps the class invariant
    [size_] = number of elements of the block, so the containers of any store
    built by these operations from nothing are well-formed. *)
Lemma class_invariant this source new_size (value : T) (values : list T) :
  preserves_wf (Vector_default (T:=T)) ∧
  preserves_wf (Vector_sized (T:=T) new_size) ∧
  preserves_wf (Vector_values values) ∧
  preserves_wf (Vector_copy (T:=T) source) ∧
  preserves_wf (Vector_move (T:=T) source) ∧
  preserves_wf (Vector_destroy (T:=T) this) ∧
  preserves_wf (operator_assign (T:=T) this source) ∧
  preserves_wf (operator_assign_values this values) ∧
  preserves_wf (operator_add_assign (T:=T) this source) ∧
  preserves_wf (operator_add_assign_values this values) ∧
  preserves_wf (Clear (T:=T) this) ∧
  preserves_wf (Resize (T:=T) this new_size) ∧
  preserves_wf (PushBack this value) ∧
  preserves_wf (PopBack (T:=T) this).
Proof.
  pose proof preserves_wf_Assign. pose proof preserves_wf_Assign_values.
  pose proof preserves_wf_Copy. pose proof preserves_wf_Vector_values.
  pose proof preserves_wf_Vector_move.
  unfold Vector_default, Vector_sized, Vector_copy, Vector_destroy, operator_assign,
    operator_assign_values, operator_add_assign, operator_add_assign_values,
    AddValues, AddValues_values, PushBack, PopBack, Vector_destroy.
  repeat match goal with |- _ ∧ _ => split end; preserves_wf_steps.
Qed.

End Vector_facts.

(** * Properties of the regression model *)

Section LinReg_facts.

Import lin_reg.
Local Open Scope float_scope.

Implicit Types (xs ys : list float) (b w : float).

(** The error of the prediction at a pair, and the error times the input. *)
Local Abbreviation err b w := (λ p : float * float, b + w * p.1 - p.2).
Local Abbreviation err_in b w := (λ p : float * float, (b + w * p.1 - p.2) * p.1).

Lemma accumulate_run xs ys b w count : ∀ (i : nat) sums,
  length xs = length ys → (i + count)%nat = length xs →
  accumulate count i (mkLinReg (Vector_of xs) (Vector_of ys) b w) sums =
    Some (fold_left PrimFloat.add (err b w <$> drop i (zip xs ys)) sums.1,
          fold_left PrimFloat.add (err_in b w <$> drop i (zip xs ys)) sums.2).
Proof.
  induction count as [|count IH]; intros i [s1 s2] Hlen Hi.
  - cbn [accumulate]. rewrite drop_ge; [done|]. rewrite length_zip_with. lia.
  - assert (is_Some (xs !! i)) as [x Hx] by (apply lookup_lt_is_Some; lia).
    assert (is_Some (ys !! i)) as [y Hy] by (apply lookup_lt_is_Some; lia).
    cbn [accumulate train_in train_out].
    change (block (Vector_of xs)) with xs. change (block (Vector_of ys)) with ys.
    rewrite Hx, Hy. cbn [mbind option_bind].
    rewrite IH by lia.
    rewrite (drop_S (zip xs ys) (x, y) i); [done|].
    by rewrite lookup_zip_with, Hx, Hy.
Qed.

Lemma Epoch_run xs ys b w :
  length xs = length ys →
  Epoch (mkLinReg (Vector_of xs) (Vector_of ys) b w) =
    Some (mkLinReg (Vector_of xs) (Vector_of ys)
            (gradient_descent_step (zip xs ys) (b, w)).1
            (gradient_descent_step (zip xs ys) (b, w)).2).
Proof.
  intros Hlen. unfold Epoch. cbn [train_in train_out bias weight Vector_of size_].
  rewrite accumulate_run by done. cbn [mbind option_bind fst snd].
  unfold gradient_descent_step, grad_bias, grad_weight, mean, learning_rate.
  rewrite drop_0, !length_fmap, length_zip_with. cbn [fst snd].
  by replace (length xs `min` length ys)%nat with (length xs) by lia.
Qed.

Lemma Epochs_run xs ys epochs : ∀ b w,
  length xs = length ys →
  Epochs epochs (mkLinReg (Vector_of xs) (Vector_of ys) b w) =
    Some (mkLinReg (Vector_of xs) (Vector_of ys)
            (Nat.iter epochs (gradient_descent_step (zip xs ys)) (b, w)).1
            (Nat.iter epochs (gradient_descent_step (zip xs ys)) (b, w)).2).
Proof.
  induction epochs as [|epochs IH]; intros b w Hlen; [done|].
  cbn [Epochs]. rewrite Epoch_run by done. cbn [mbind option_bind].
  rewrite IH by done. rewrite Nat.iter_succ_r.
  by destruct (gradient_descent_step (zip xs ys) (b, w)).
Qed.

(** C1: on a training set of [n > 0] pairs, [Train(e)] performs exactly [e]
    iterations of batch gradient descent: each iteration takes [grad_bias] as
    the mean of [bias + weight * x_i - y_i] and [grad_weight] as the mean of
    that error times [x_i] over all pairs, and moves [bias] and [weight]
    against them by the learning rate 0.01; the training data are untouched. *)
Theorem Train_batch_gradient_descent xs ys b w (epochs : nat) :
  length xs = length ys → (0 < length xs)%nat →
  Train epochs (mkLinReg (Vector_of xs) (Vector_of ys) b w) =
    Some (mkLinReg (Vector_of xs) (Vector_of ys)
            (Nat.iter epochs (gradient_descent_step (zip xs ys)) (b, w)).1
            (Nat.iter epochs (gradient_descent_step (zip xs ys)) (b, w)).2).
Proof.
  intros Hlen Hpos. unfold Train. cbn [train_in Vector_of size_].
  destruct (decide _) as [Hz|_]; [lia|]. by apply Epochs_run.
Qed.

(** The update rule as the specification words it, run on the three training
    sets of [lin_reg_test.cpp]: 1000 epochs of the batch update with mean
    gradients at learning rate 1 % do not bring the predictions within 0.001
    of the training outputs; the prediction at the input 0 misses its target
    by more than 0.05, 0.2 and 3 respectively.  This is a fact about the
    wording of the specification only: [lin_reg.hpp] is not at hand, and
    what its [Train] does on these inputs is not known. *)
Lemma batch_rule_not_within_tolerance :
  Test1 = Some false ∧ Test2 = Some false ∧ Test3 = Some false ∧
  (∃ m, trained [0; 1; 2; 3; 4] [2; 4; 6; 8; 10] = Some m ∧
        EXPECT_NEAR 2 (Predict m 0) 0.05 = false) ∧
  (∃ m, trained [0; 1; 2; 3; 4] [-5; -2; 1; 4; 7] = Some m ∧
        EXPECT_NEAR (-5) (Predict m 0) 0.2 = false) ∧
  (∃ m, trained [0; 1; 2; 3; 4] [-50; 50; 150; 250; 350] = Some m ∧
        EXPECT_NEAR (-50) (Predict m 0) 3 = false).
Proof.
  repeat match goal with |- _ ∧ _ => split end;
    try (vm_compute; reflexivity);
    (eexists; split; [vm_compute; reflexivity|vm_compute; reflexivity]).
Qed.

End LinReg_facts.

(** * The theorems at concrete inputs *)

Section Examples.

Import scenarios lin_reg.

(** The embedding run on small programs. *)
Example literal_then_self_append :
  (a ← Vector_values [1; 2; 3]; AddValues a a) (mkWorld generous 0 []) =
    Ok true (mkWorld generous 2 [holding [1; 2; 3; 1; 2; 3]]).
Proof. reflexivity. Qed.

Example assign_from_literal :
  operator_assign_values 0 [9; 9] (two_containers generous) =
    Ok tt (mkWorld generous 2 [holding [9; 9]; holding [3]; empty_Vector]).
Proof. reflexivity. Qed.

Example copy_pop_push_move :
  (a ← Vector_values [1; 2; 3];
   b ← Vector_copy a;
   PopBack b;; PopBack b;; PushBack b 5;;
   c ← Vector_move b;
   operator_index c 1) (mkWorld generous 0 []) =
    Ok 5 (mkWorld generous 5 [holding [1; 2; 3]; empty_Vector; holding [1; 5]]).
Proof. reflexivity. Qed.

Example read_past_the_end :
  operator_index 0 2 (two_containers generous) = Undefined.
Proof. reflexivity. Qed.

Lemma Resize_exact_or_unchanged_witness :
  store (two_containers generous) !! 0 = Some (holding [1; 2]) ∧ wf (holding [1; 2]) ∧
  ∃ w' blk,
    Resize 0 3 (two_containers generous) = Ok true w' ∧
    store w' = <[0 := mkVector (Some blk) 3]> (store (two_containers generous)) ∧
    length blk = 3 ∧
    ∀ i, i < min (size_ (holding [1; 2])) 3 → blk !! i = block (holding [1; 2]) !! i.
Proof.
  split; [reflexivity|]. split; [reflexivity|].
  exact (Resize_exact_or_unchanged (two_containers generous) 0 (holding [1; 2]) 3 eq_refl eq_refl).
Defined.

Lemma PopBack_at_most_one_witness :
  store (one_empty generous) !! 0 = Some empty_Vector ∧
  size_ (empty_Vector (T:=nat)) ≤ 1 ∧
  ∃ w', PopBack 0 (one_empty generous) = Ok true w' ∧
        store w' !! 0 = Some (mkVector None 0) ∧ clock w' = 0.
Proof.
  split; [reflexivity|]. split; [cbn; lia|].
  destruct (PopBack_at_most_one (one_empty generous) 0 empty_Vector eq_refl (le_S 0 0 (le_n 0)))
    as (_ & w' & Hrun & _ & Hlookup & Hclock).
  by exists w'.
Defined.

Lemma PopBack_spec_witness :
  store (two_containers generous) !! 0 = Some (holding [1; 2]) ∧ wf (holding [1; 2]) ∧
  PopBack 0 (two_containers generous) =
    Ok true (mkWorld generous 1 [holding [1]; holding [3]]).
Proof.
  split; [reflexivity|]. split; [reflexivity|].
  exact (proj2 (PopBack_spec (two_containers generous) 0 (holding [1; 2]) eq_refl eq_refl)).
Defined.

(** C5 as stated fails: on a container of two elements, [PopBack()] returns
    [false] when the heap refuses the reallocation. *)
Lemma PopBack_returns_false :
  wf (holding [1; 2]) ∧
  PopBack 0 (two_containers exhausted) =
    Ok false (mkWorld exhausted 1 [holding [1; 2]; holding [3]]).
Proof. split; reflexivity. Qed.

Lemma Vector_move_spec_witness :
  store (two_containers generous) !! 0 = Some (holding [1; 2]) ∧
  ∃ B w' b, Vector_move 0 (two_containers generous) = Ok B w' ∧
            store w' = [empty_Vector; holding [3]; b] ∧
            store w' !! 0 = Some (mkVector None 0) ∧
            data_ b = Some [1; 2] ∧ size_ b = 2.
Proof.
  split; [reflexivity|].
  destruct (Vector_move_spec (two_containers generous) 0 (holding [1; 2]) eq_refl)
    as (B & w' & b & Hrun & Hstore & HA & _ & Hdata & Hsize & _).
  by exists B, w', b.
Defined.

Lemma operator_add_assign_spec_witness :
  store (two_containers generous) !! 0 = Some (holding [1; 2]) ∧
  store (two_containers generous) !! 1 = Some (holding [3]) ∧
  wf (holding [1; 2]) ∧ wf (holding [3]) ∧
  ∃ w', operator_add_assign 0 1 (two_containers generous) = Ok tt w' ∧
        clock w' = 1 ∧
        ∃ blk, store w' = [mkVector (Some blk) 3; holding [3]] ∧ blk = [1; 2; 3].
Proof.
  do 4 (split; [reflexivity|]).
  destruct (operator_add_assign_spec (two_containers generous) 0 1 (holding [1; 2]) (holding [3])
              eq_refl eq_refl eq_refl eq_refl)
    as (w' & Hrun & Hclock & blk & Hstore & Hblk & _).
  exists w'. split; [done|]. split; [done|]. by exists blk.
Defined.

(** C6 as stated fails: when the heap refuses the reallocation, [A += B]
    leaves [A] with its two elements although [B] holds one. *)
Lemma operator_add_assign_refused :
  wf (holding [1; 2]) ∧ wf (holding [3]) ∧
  ∃ w' a', operator_add_assign 0 1 (two_containers exhausted) = Ok tt w' ∧
           store w' !! 0 = Some a' ∧
           size_ a' ≠ size_ (holding [1; 2]) + size_ (holding [3]).
Proof.
  split; [reflexivity|]. split; [reflexivity|].
  exists (mkWorld exhausted 1 [holding [1; 2]; holding [3]]), (holding [1; 2]).
  split; [reflexivity|]. split; [reflexivity|]. cbn. lia.
Qed.

Lemma operator_assign_self_witness :
  store (two_containers generous) !! 0 = Some (holding [1; 2]) ∧
  ∃ w' d, operator_assign 0 0 (two_containers generous) = Ok tt w' ∧
          store w' = [mkVector d 0; holding [3]] ∧ default [] d = [].
Proof.
  split; [reflexivity|].
  destruct (operator_assign_self (two_containers generous) 0 (holding [1; 2]) eq_refl)
    as (_ & w' & d & _ & _ & _ & Hrun & Hstore & Hd).
  by exists w', d.
Defined.

Lemma PushBack_PopBack_round_trip_witness :
  store (one_empty generous) !! 0 = Some empty_Vector ∧
  ∃ popped w',
    (pushed ← PushBack_all 0 [7; 8; 9];
     popped ← PopBack_times 3 0;
     mret (pushed, popped)) (one_empty generous) = Ok ([true; true; true], popped) w' ∧
    popped = [true; true; true] ∧
    store w' = [empty_Vector] ∧ store w' !! 0 = Some (mkVector None 0).
Proof.
  split; [reflexivity|].
  destruct (PushBack_PopBack_round_trip (one_empty generous) 0 [7; 8; 9] eq_refl)
    as (pushed & popped & w' & Hrun & Hempty).
  assert (pushed = [true; true; true] ∧ popped = [true; true; true]) as [-> ->].
  { vm_compute in Hrun. by injection Hrun as <- <- _. }
  exists [true; true; true], w'. split; [exact Hrun|]. split; [reflexivity|].
  apply Hempty. by repeat constructor.
Defined.

(** C7 as stated fails: after two [PushBack] calls, the first of two
    [PopBack] calls is refused its reallocation and returns [false]; the
    second removes one element, and the container is left holding one. *)
Lemma PushBack_PopBack_not_empty :
  (pushed ← PushBack_all 0 [1; 2];
   popped ← PopBack_times 2 0;
   mret (pushed, popped)) (one_empty refusing_third) =
    Ok ([true; true], [false; true]) (mkWorld refusing_third 4 [holding [1]]).
Proof. reflexivity. Qed.

Lemma operations_on_failure_witness :
  store (two_containers exhausted) !! 0 = Some (holding [1; 2]) ∧
  store (two_containers exhausted) !! 1 = Some (holding [3]) ∧
  wf (holding [1; 2]) ∧ wf (holding [3]) ∧
  succeeds_or_unchanged (Copy 0 1) (two_containers exhausted) ∧
  ∃ w', operator_assign 0 1 (two_containers exhausted) = Ok tt w' ∧
        store w' = [empty_Vector; holding [3]].
Proof.
  do 4 (split; [reflexivity|]).
  destruct (operations_on_failure (two_containers exhausted) 0 1 (holding [1; 2]) (holding [3])
              5 4 [6] eq_refl eq_refl eq_refl eq_refl)
    as (_ & _ & _ & Hcopy & _ & _ & _ & _ & _ & _ & _ & Hassign).
  split; [exact Hcopy|exact Hassign].
Defined.

(** C4 as stated fails: when the heap refuses the copy, [A = B] neither gives
    [A] the values of [B] nor leaves [A] as it was: [A] is left empty. *)
Lemma operator_assign_refused :
  operator_assign 0 1 (two_containers exhausted) =
    Ok tt (mkWorld exhausted 1 [empty_Vector; holding [3]]) ∧
  ¬ assignment_succeeds_or_unchanged 0 1 (two_containers exhausted).
Proof.
  split; [reflexivity|].
  intros (w' & Hrun & Hcases).
  assert (w' = mkWorld exhausted 1 [empty_Vector; holding [3]]) as -> by (by injection Hrun).
  destruct Hcases as [(s & d & Hs & Hd & _ & Hsize)|Hstore].
  - injection Hs as <-. injection Hd as <-. discriminate Hsize.
  - discriminate Hstore.
Qed.

Lemma Train_batch_gradient_descent_witness :
  length [0; 1; 2; 3; 4]%float = length [2; 4; 6; 8; 10]%float ∧
  0 < length [0; 1; 2; 3; 4]%float ∧
  Train 2 (mkLinReg (Vector_of [0; 1; 2; 3; 4]%float) (Vector_of [2; 4; 6; 8; 10]%float) 0 0) =
    Some (mkLinReg (Vector_of [0; 1; 2; 3; 4]%float) (Vector_of [2; 4; 6; 8; 10]%float)
            (Nat.iter 2 (gradient_descent_step
                           (zip [0; 1; 2; 3; 4]%float [2; 4; 6; 8; 10]%float)) (0, 0)%float).1
            (Nat.iter 2 (gradient_descent_step
                           (zip [0; 1; 2; 3; 4]%float [2; 4; 6; 8; 10]%float)) (0, 0)%float).2).
Proof.
  split; [reflexivity|]. split; [cbn; lia|].
  apply (Train_batch_gradient_descent [0; 1; 2; 3; 4]%float [2; 4; 6; 8; 10]%float 0 0 2).
  - reflexivity.
  - cbn; lia.
Defined.

End Examples.

(** * Further properties of the container *)

Section Vector_more_facts.

Context {T : Type}.
Implicit Types (w : World T) (v : Vector T) (this source : ref).

(** ** Growing by one element *)

(** X2: [PushBack(value)] makes one request to the heap.  When it is granted the
    container has one element more, [value] at the new last index and the
    prior elements at their indices, and the call returns [true]; when it is
    refused the call returns [false] and no container has changed. *)
Theorem PushBack_appends w this v (value : T) :
  store w !! this = Some v → wf v →
  ∃ b w',
    PushBack this value w = Ok b w' ∧ clock w' = S (clock w) ∧
    match heap w (clock w) with
    | Some _ =>
        b = true ∧
        ∃ blk, store w' = <[this := mkVector (Some blk) (S (size_ v))]> (store w) ∧
               length blk = S (size_ v) ∧
               blk !! size_ v = Some value ∧
               ∀ i, i < size_ v → blk !! i = block v !! i
    | None => b = false ∧ store w' = store w
    end.
Proof.
  intros H Hwf. destruct (heap w (clock w)) as [junk|] eqn:Hh.
  - rewrite (PushBack_granted _ _ _ _ _ H Hwf Hh).
    eexists _, _. split; [done|]. split; [done|]. split; [done|].
    exists (block v ++ [value]). unfold wf in Hwf.
    split; [by rewrite Nat.add_1_r|]. split; [rewrite length_app; cbn; lia|]. split.
    + by rewrite <- Hwf, list_lookup_middle.
    + intros i Hi. by rewrite lookup_app_l by lia.
  - rewrite (PushBack_refused _ _ _ _ H Hh). by eexists _, _.
Qed.

(** X3: when the heap grants each of their requests, the calls
    [PushBack(x_1)], ..., [PushBack(x_n)] all return [true] and leave the
    container holding its prior elements followed by [x_1 .. x_n] in order;
    the heap has received exactly [n] requests. *)
Theorem PushBack_all_granted (values : list T) : ∀ w this v,
  store w !! this = Some v → wf v →
  (∀ k, k < length values → is_Some (heap w (clock w + k))) →
  ∃ w' v',
    PushBack_all this values w = Ok (replicate (length values) true) w' ∧
    store w' = <[this := v']> (store w) ∧
    block v' = block v ++ values ∧ size_ v' = size_ v + length values ∧
    clock w' = clock w + length values ∧ heap w' = heap w.
Proof.
  induction values as [|value values IH]; intros w this v H Hwf Hheap.
  - exists w, v. cbn. rewrite list_insert_id, app_nil_r by done.
    repeat split; try done; lia.
  - destruct (Hheap 0) as [junk Hh]; [cbn; lia|]. rewrite Nat.add_0_r in Hh.
    cbn [PushBack_all]. rewrite run_bind, (PushBack_granted _ _ _ _ _ H Hwf Hh), run_bind.
    set (w1 := with_store (tick w)
                 (<[this := mkVector (Some (block v ++ [value])) (size_ v + 1)]> (store w))).
    assert (store w1 !! this = Some (mkVector (Some (block v ++ [value])) (size_ v + 1))) as H1
      by (by eapply lookup_with_store_eq).
    assert (wf (mkVector (Some (block v ++ [value])) (size_ v + 1))) as Hwf1.
    { unfold wf in *. cbn. rewrite length_app. cbn. lia. }
    assert (∀ k, k < length values → is_Some (heap w1 (clock w1 + k))) as Hheap1.
    { intros k Hk. cbn [heap clock tick with_store w1].
      replace (S (clock w) + k) with (clock w + S k) by lia. apply Hheap. cbn. lia. }
    destruct (IH _ _ _ H1 Hwf1 Hheap1) as (w' & v' & Hrun & Hst & Hblk & Hsz & Hclock & Hheap').
    rewrite Hrun, run_ret. exists w', v'. split; [done|].
    cbn in Hst, Hblk, Hsz, Hclock, Hheap'.
    rewrite list_insert_insert_eq in Hst. rewrite <- (assoc_L (++)) in Hblk.
    repeat split; try done; cbn; lia.
Qed.

(** X4: [PushBack] followed by [PopBack], both served by the heap, gives back the
    contents the container had: the same elements at the same indices and
    the same size. *)
Theorem PushBack_then_PopBack w this v (value : T) :
  store w !! this = Some v → wf v →
  is_Some (heap w (clock w)) → is_Some (heap w (S (clock w))) →
  ∃ w' v',
    (PushBack this value;; PopBack this) w = Ok true w' ∧
    store w' = <[this := v']> (store w) ∧
    block v' = block v ∧ size_ v' = size_ v.
Proof.
  intros H Hwf [junk Hh] [junk' Hh']. unfold wf in Hwf.
  rewrite run_bind, (PushBack_granted _ _ _ _ _ H Hwf Hh).
  set (v1 := mkVector (Some (block v ++ [value])) (size_ v + 1)).
  set (w1 := with_store (tick w) (<[this := v1]> (store w))).
  assert (store w1 !! this = Some v1) as H1 by (by eapply lookup_with_store_eq).
  destruct (decide (size_ v1 ≤ 1)) as [Hn|Hn].
  - rewrite (PopBack_small_run _ _ _ H1 Hn). eexists _, empty_Vector.
    split; [done|]. cbn [store with_store w1]. rewrite list_insert_insert_eq.
    split; [done|]. cbn in Hn. assert (size_ v = 0) as Hz by lia.
    split; [|done]. cbn. symmetry. apply nil_length_inv. lia.
  - rewrite (PopBack_large_run _ _ _ H1 Hn), (Resize_granted _ _ _ _ junk' H1 Hh').
    eexists _, _. split; [done|]. cbn [store with_store tick w1].
    rewrite list_insert_insert_eq. split; [done|].
    change (block v1) with (block v ++ [value]). change (size_ v1) with (size_ v + 1).
    change (block (mkVector (Some ?l) _)) with l. cbn [size_].
    split; [|lia].
    rewrite realloc_block_shrink by (rewrite length_app; cbn; lia).
    replace (size_ v + 1 - 1) with (length (block v)) by lia.
    by rewrite take_app_length.
Qed.

(** ** Resizing twice *)

Lemma realloc_block_twice (old : list T) (m n : nat) junk junk' :
  n ≤ m →
  realloc_block (realloc_block old m junk) n junk' = realloc_block old n junk.
Proof.
  intros Hnm. rewrite realloc_block_shrink by (rewrite length_realloc_block; lia).
  unfold realloc_block. destruct (decide (n ≤ length old)) as [Hn|Hn].
  - rewrite take_app_le by (rewrite length_take; lia).
    rewrite take_take. replace (n `min` m) with n by lia.
    replace (n - length old) with 0 by lia. cbn. by rewrite app_nil_r.
  - rewrite (take_ge old m), (take_ge old n) by lia.
    rewrite take_app_ge by lia. f_equal.
    rewrite <- fmap_take, take_seq. do 2 f_equal. lia.
Qed.

(** X5: [Resize(m)] followed by [Resize(n)] with [n ≤ m], both granted, leaves the
    container as [Resize(n)] alone would have, the second reallocation only
    cutting the block: in particular the elements below [min n size_] are the
    prior ones, and resizing up and back to the prior size loses nothing. *)
Theorem Resize_then_Resize w this v (m n : nat) junk junk' :
  store w !! this = Some v → wf v → n ≤ m →
  heap w (clock w) = Some junk → heap w (S (clock w)) = Some junk' →
  ∃ w' blk,
    (Resize this m;; Resize this n) w = Ok true w' ∧
    store w' = <[this := mkVector (Some blk) n]> (store w) ∧
    blk = realloc_block (block v) n junk ∧
    (n ≤ size_ v → blk = take n (block v)) ∧
    (n = size_ v → blk = block v).
Proof.
  intros H Hwf Hnm Hh Hh'. unfold wf in Hwf.
  rewrite run_bind, (Resize_granted _ _ _ _ _ H Hh).
  erewrite Resize_granted; [|by eapply lookup_with_store_eq|exact Hh'].
  eexists _, _. split; [done|]. cbn [store with_store tick].
  rewrite list_insert_insert_eq. split; [done|].
  change (block (mkVector (Some ?l) _)) with l.
  split; [by apply realloc_block_twice|].
  rewrite realloc_block_twice by done. split.
  - intros Hn. apply realloc_block_shrink. lia.
  - intros ->. rewrite realloc_block_shrink, take_ge by lia. done.
Qed.

(** ** [Assign] at any offset *)

Lemma Assign_loop_general j : ∀ fuel i w this source offset s blk n,
  this ≠ source →
  store w !! source = Some s → wf s →
  store w !! this = Some (mkVector (Some blk) n) → length blk = n →
  i + j = (n - offset) `min` size_ s → j < fuel →
  Assign_loop fuel this source offset i w =
    Ok tt (with_store w
             (<[this := mkVector
                          (Some (take (offset + i) blk ++ take j (drop i (block s))
                                   ++ drop (offset + i + j) blk)) n]>
                (store w))).
Proof.
  induction j as [|j IH]; intros fuel i w this source offset s blk n Hne Hs Hwf H Hlen Hij Hfuel;
    (destruct fuel as [|fuel]; [lia|]).
  - erewrite Assign_loop_exit by (eauto; cbn; lia).
    rewrite take_0, Nat.add_0_r. cbn [app]. rewrite take_drop.
    by rewrite list_insert_id, with_store_id.
  - assert (is_Some (block s !! i)) as [x Hx].
    { apply lookup_lt_is_Some. unfold wf in Hwf. lia. }
    destruct (block_lookup_data _ _ _ Hx) as (sblk & Hd & Hx').
    erewrite Assign_loop_step; [|done|done|cbn; lia|lia|done|done|done|lia].
    erewrite IH; [|done| |done| |by rewrite length_insert|lia|lia].
    + rewrite with_store_twice. cbn [store with_store size_].
      rewrite list_insert_insert_eq. do 3 f_equal.
      rewrite Nat.add_succ_r.
      erewrite take_S_r by (apply list_lookup_insert_eq; lia).
      rewrite take_insert_ge by lia.
      rewrite drop_insert_lt by lia.
      rewrite (drop_S (block s) x i) by done. cbn [take].
      rewrite <- (assoc_L (++)). cbn [app].
      by replace (S (offset + i) + j) with (offset + i + S j) by lia.
    + cbn. by rewrite list_lookup_insert_ne.
    + cbn. apply list_lookup_insert_eq. by eapply lookup_lt_Some.
Qed.

(** X7: [Assign(source, offset)] into another container, for any offset and any
    two sizes: it never touches a cell outside either block.  It copies the
    first [k] elements of the source to the indices [offset .. offset+k-1],
    [k] being the smaller of the source's size and of the room left from
    [offset] on, and changes neither the size nor any other element; with an
    offset at or past the end it copies nothing. *)
Theorem Assign_within_bounds w this source v s (offset : nat) :
  this ≠ source →
  store w !! this = Some v → store w !! source = Some s → wf v → wf s →
  ∃ w' v',
    Assign this source offset w = Ok tt w' ∧
    store w' = <[this := v']> (store w) ∧
    size_ v' = size_ v ∧
    block v' = take offset (block v)
                 ++ take ((size_ v - offset) `min` size_ s) (block s)
                 ++ drop (offset + (size_ v - offset) `min` size_ s) (block v).
Proof.
  intros Hne H Hs Hwf Hwfs. unfold Assign.
  rewrite run_bind, (get_size_run _ _ _ Hs).
  destruct (decide ((size_ v - offset) `min` size_ s = 0)) as [Hz|Hz].
  - erewrite Assign_loop_exit by (eauto; lia).
    exists w, v. rewrite list_insert_id by done. rewrite Hz, take_0, Nat.add_0_r.
    cbn [app]. by rewrite take_drop.
  - destruct v as [[blk|] n]; unfold wf in Hwf; cbn in Hwf, Hz; [|lia].
    erewrite (Assign_loop_general ((n - offset) `min` size_ s) _ 0); [|done..|lia|lia].
    eexists _, _. split; [done|]. split; [done|]. split; [done|].
    cbn. by rewrite Nat.add_0_r, drop_0.
Qed.

Lemma Assign_values_loop_general j : ∀ fuel i w this (values : list T) offset blk n,
  store w !! this = Some (mkVector (Some blk) n) → length blk = n →
  i + j = length values `min` (n - offset) → j < fuel →
  Assign_values_loop fuel this values offset i w =
    Ok tt (with_store w
             (<[this := mkVector
                          (Some (take (offset + i) blk ++ take j (drop i values)
                                   ++ drop (offset + i + j) blk)) n]>
                (store w))).
Proof.
  induction j as [|j IH]; intros fuel i w this values offset blk n H Hlen Hij Hfuel;
    (destruct fuel as [|fuel]; [lia|]); cbn [Assign_values_loop];
    rewrite run_bind, (get_size_run _ _ _ H); cbn [size_].
  - destruct (decide _) as [[]|_]; [lia|].
    rewrite take_0, Nat.add_0_r. cbn [app]. rewrite take_drop.
    by rewrite list_insert_id, with_store_id.
  - destruct (decide _) as [_|[]]; [|lia].
    assert (is_Some (values !! i)) as [x Hx].
    { apply lookup_lt_is_Some. lia. }
    rewrite Hx, run_bind.
    erewrite write_elem_run; [|done|done|lia].
    erewrite IH; [| |by rewrite length_insert|lia|lia].
    + rewrite with_store_twice. cbn [store with_store size_].
      rewrite list_insert_insert_eq. do 3 f_equal.
      rewrite Nat.add_succ_r.
      erewrite take_S_r by (apply list_lookup_insert_eq; lia).
      rewrite take_insert_ge by lia.
      rewrite drop_insert_lt by lia.
      rewrite (drop_S values x i) by done. cbn [take].
      rewrite <- (assoc_L (++)). cbn [app].
      by replace (S (offset + i) + j) with (offset + i + S j) by lia.
    + cbn. apply list_lookup_insert_eq. by eapply lookup_lt_Some.
Qed.

(** X8: [Assign(values, offset)] from an array, for any offset, any array length
    and any container size: it never touches a cell outside the block or
    past the array.  It copies the first [k] values to the indices
    [offset .. offset+k-1], [k] being the smaller of the array length and of
    the room left from [offset] on, and changes nothing else. *)
Theorem Assign_values_within_bounds w this v (values : list T) (offset : nat) :
  store w !! this = Some v → wf v →
  ∃ w' v',
    Assign_values this values offset w = Ok tt w' ∧
    store w' = <[this := v']> (store w) ∧
    size_ v' = size_ v ∧
    block v' = take offset (block v)
                 ++ take (length values `min` (size_ v - offset)) values
                 ++ drop (offset + length values `min` (size_ v - offset)) (block v).
Proof.
  intros H Hwf. unfold Assign_values.
  destruct (decide (length values `min` (size_ v - offset) = 0)) as [Hz|Hz].
  - cbn [Assign_values_loop]. rewrite run_bind, (get_size_run _ _ _ H).
    destruct (decide _) as [[]|_]; [lia|].
    exists w, v. rewrite list_insert_id by done. rewrite Hz, take_0, Nat.add_0_r.
    cbn [app]. by rewrite take_drop.
  - destruct v as [[blk|] n]; unfold wf in Hwf; cbn in Hwf, Hz; [|lia].
    erewrite (Assign_values_loop_general (length values `min` (n - offset)) _ 0);
      [|done..|lia|lia].
    eexists _, _. split; [done|]. split; [done|]. split; [done|].
    cbn. by rewrite Nat.add_0_r, drop_0.
Qed.

(** ** The copy constructor *)

Lemma Vector_copy_granted w source s junk :
  store w !! source = Some s → wf s → heap w (clock w) = Some junk →
  Vector_copy source w =
    Ok (length (store w))
       (with_store (tick w) (store w ++ [mkVector (Some (block s)) (size_ s)])).
Proof.
  intros Hs Hwf Hh. unfold Vector_copy, new_object. rewrite run_bind, run_bind.
  set (w1 := with_store w (store w ++ [empty_Vector])).
  assert (store w1 !! length (store w) = Some empty_Vector) as H1 by apply lookup_fresh.
  assert (store w1 !! source = Some s) as Hs1.
  { cbn. rewrite lookup_app_l; [done|]. by eapply lookup_lt_Some. }
  rewrite (Copy_granted _ _ _ _ _ junk H1 Hs1 eq_refl Hwf) by done.
  rewrite run_ret. cbn [store with_store tick w1]. by rewrite insert_fresh.
Qed.

Lemma Vector_copy_refused w source s :
  store w !! source = Some s → heap w (clock w) = None →
  Vector_copy source w =
    Ok (length (store w)) (with_store (tick w) (store w ++ [empty_Vector])).
Proof.
  intros Hs Hh. unfold Vector_copy, new_object. rewrite run_bind, run_bind.
  set (w1 := with_store w (store w ++ [empty_Vector])).
  assert (store w1 !! length (store w) = Some empty_Vector) as H1 by apply lookup_fresh.
  assert (store w1 !! source = Some s) as Hs1.
  { cbn. rewrite lookup_app_l; [done|]. by eapply lookup_lt_Some. }
  rewrite (Copy_refused _ _ _ _ _ H1 Hs1) by done. by rewrite run_ret.
Qed.

(** X6: the copy constructor asks the heap for a block of its own: it makes
    exactly one request.  When the request is granted the new container has
    the size of the source and the values of the source at the same indices;
    when it is refused the new container is empty, with a null block.  The
    source and every other container are left as they were. *)
Theorem Vector_copy_spec w source s :
  store w !! source = Some s → wf s →
  ∃ w' copy,
    Vector_copy source w = Ok (length (store w)) w' ∧
    clock w' = S (clock w) ∧
    store w' = store w ++ [copy] ∧
    match heap w (clock w) with
    | Some _ => size_ copy = size_ s ∧ ∃ blk, data_ copy = Some blk ∧
                                               ∀ i, blk !! i = block s !! i
    | None => copy = mkVector None 0
    end.
Proof.
  intros Hs Hwf. destruct (heap w (clock w)) as [junk|] eqn:Hh.
  - rewrite (Vector_copy_granted _ _ _ _ Hs Hwf Hh).
    eexists _, _. split; [done|]. split; [done|]. split; [done|].
    split; [done|]. by exists (block s).
  - rewrite (Vector_copy_refused _ _ _ Hs Hh).
    eexists _, _. split; [done|]. split; [done|]. by split.
Qed.

(** ** Assigning and appending an array *)

Lemma Vector_values_granted w (values : list T) junk :
  heap w (clock w) = Some junk →
  Vector_values values w =
    Ok (length (store w))
       (with_store (tick w) (store w ++ [mkVector (Some values) (length values)])).
Proof.
  intros Hh. unfold Vector_values, new_object. rewrite run_bind, run_bind.
  set (w1 := with_store w (store w ++ [empty_Vector])).
  assert (store w1 !! length (store w) = Some empty_Vector) as H1 by apply lookup_fresh.
  rewrite (Resize_granted _ _ _ _ junk H1) by done. rewrite run_bind. unfold Assign_values.
  erewrite (Assign_values_loop_run (length values) _ 0 _ _ values 0);
    [|by eapply lookup_with_store_eq|by rewrite length_realloc_block|lia|lia].
  rewrite with_store_twice, run_ret. cbn [store with_store tick w1].
  by rewrite list_insert_insert_eq, insert_fresh, drop_0.
Qed.

Lemma Vector_values_refused w (values : list T) :
  heap w (clock w) = None →
  Vector_values values w =
    Ok (length (store w)) (with_store (tick w) (store w ++ [empty_Vector])).
Proof.
  intros Hh. unfold Vector_values, new_object. rewrite run_bind, run_bind.
  set (w1 := with_store w (store w ++ [empty_Vector])).
  assert (store w1 !! length (store w) = Some empty_Vector) as H1 by apply lookup_fresh.
  rewrite (Resize_refused _ _ _ _ H1) by done. by rewrite run_bind, run_ret, run_ret.
Qed.

(** X9: the assignment of an array, [v = {...}], makes two requests to the heap:
    one for a temporary container built from the array, one for the copy.
    When both are granted [v] holds the values of the array; when only the
    copy is granted [v] is left with no element, the temporary having come
    out empty; when the copy is refused [v] is left empty with a null block.
    In no case does [v] keep a prior element, and the temporary is always
    destroyed, its block released. *)
Theorem operator_assign_values_spec w this v (values : list T) :
  store w !! this = Some v →
  ∃ w' v',
    operator_assign_values this values w = Ok tt w' ∧
    clock w' = S (S (clock w)) ∧
    store w' = <[this := v']> (store w) ++ [empty_Vector] ∧
    match heap w (clock w), heap w (S (clock w)) with
    | Some _, Some _ => v' = mkVector (Some values) (length values)
    | None, Some _ => v' = mkVector (Some []) 0
    | _, None => v' = empty_Vector
    end.
Proof.
  intros H. pose proof (lookup_lt_Some _ _ _ H) as Hlt.
  unfold operator_assign_values, Vector_destroy.
  rewrite (run_bind (Clear this)), (Clear_run _ _ _ H).
  set (w1 := with_store w (<[this:=empty_Vector]> (store w))).
  assert (length (store w1) = length (store w)) as Hlen by (cbn; by rewrite length_insert).
  rewrite run_bind.
  assert (∀ tmp, wf tmp →
    ∃ w' v',
      (Copy this (length (store w));; Clear (length (store w)))
        (with_store (tick w1) (store w1 ++ [tmp])) = Ok tt w' ∧
      clock w' = S (S (clock w)) ∧
      store w' = <[this := v']> (store w) ++ [empty_Vector] ∧
      match heap w (S (clock w)) with
      | Some _ => v' = mkVector (Some (block tmp)) (size_ tmp)
      | None => v' = empty_Vector
      end) as Hrest.
  { intros tmp Hwf. set (w2 := with_store (tick w1) (store w1 ++ [tmp])).
    assert (store w2 !! this = Some empty_Vector) as H2.
    { cbn. rewrite lookup_app_l by (rewrite length_insert; lia).
      by apply list_lookup_insert_eq. }
    assert (store w2 !! length (store w) = Some tmp) as Htmp.
    { cbn [store with_store w2]. rewrite <- Hlen. apply lookup_fresh. }
    rewrite run_bind. change (heap w (S (clock w))) with (heap w2 (clock w2)).
    destruct (heap w2 (clock w2)) as [junk|] eqn:Hh.
    - rewrite (Copy_granted _ _ _ _ _ _ H2 Htmp eq_refl Hwf Hh).
      erewrite Clear_run.
      2:{ cbn [store with_store tick w2]. rewrite insert_app_l by (rewrite Hlen; lia).
          rewrite <- Hlen at 1. rewrite <- (length_insert (store w1) this
            (mkVector (Some (block tmp)) (size_ tmp))). apply lookup_fresh. }
      eexists _, _. split; [done|]. split; [done|]. split; [|done].
      cbn [store with_store tick w2 w1].
      rewrite insert_app_l by (rewrite length_insert; lia).
      rewrite list_insert_insert_eq.
      rewrite <- (length_insert (store w) this (mkVector (Some (block tmp)) (size_ tmp))) at 1.
      by rewrite insert_fresh.
    - rewrite (Copy_refused _ _ _ _ _ H2 Htmp Hh).
      erewrite Clear_run by exact Htmp.
      eexists _, _. split; [done|]. split; [done|]. split; [|done].
      cbn [store with_store tick w2 w1].
      rewrite <- (length_insert (store w) this empty_Vector) at 1.
      by rewrite insert_fresh. }
  change (heap w (clock w)) with (heap w1 (clock w1)).
  destruct (heap w1 (clock w1)) as [junk|] eqn:Hh.
  - rewrite (Vector_values_granted _ _ _ Hh), Hlen.
    destruct (Hrest (mkVector (Some values) (length values)) eq_refl)
      as (w' & v' & Hrun & Hclock & Hst & Hv).
    exists w', v'. split; [exact Hrun|]. split; [done|]. split; [done|].
    by destruct (heap w (S (clock w))).
  - rewrite (Vector_values_refused _ _ Hh), Hlen.
    destruct (Hrest empty_Vector eq_refl) as (w' & v' & Hrun & Hclock & Hst & Hv).
    exists w', v'. split; [exact Hrun|]. split; [done|]. split; [done|].
    by destruct (heap w (S (clock w))).
Qed.

(** X10: [v += {...}] with an array makes one request to the heap; when it is
    granted [v] holds its prior elements followed by the values of the array
    in order, and when it is refused no container has changed. *)
Theorem operator_add_assign_values_spec w this v (values : list T) :
  store w !! this = Some v → wf v →
  ∃ w', operator_add_assign_values this values w = Ok tt w' ∧
        clock w' = S (clock w) ∧
        match heap w (clock w) with
        | Some _ =>
            store w' = <[this := mkVector (Some (block v ++ values))
                                          (size_ v + length values)]> (store w)
        | None => store w' = store w
        end.
Proof.
  intros H Hwf. unfold operator_add_assign_values. rewrite run_bind.
  destruct (heap w (clock w)) as [junk|] eqn:Hh.
  - rewrite (AddValues_values_granted _ _ _ _ _ H Hwf Hh), run_ret. by eexists.
  - rewrite (AddValues_values_refused _ _ _ _ H Hh), run_ret. by eexists.
Qed.

(** ** Pointers into the block *)

Lemma end__run w this v :
  store w !! this = Some v → wf v →
  end_ this w = Ok (match data_ v with Some _ => cell (size_ v) | None => nullptr end) w.
Proof.
  intros H Hwf. unfold end_.
  rewrite run_bind, (get_data_run _ _ _ H), run_bind, (get_size_run _ _ _ H).
  destruct v as [[blk|] n]; [done|]. unfold wf in Hwf. cbn in *. subst n.
  by destruct (decide _).
Qed.

(** X11: on a well-formed container [begin()] and [end()] are defined, and equal
    exactly when the container has no element; otherwise [begin()] is the
    address of the first cell, [end()] the address [Size()] cells further,
    and every address in between holds the element of its index. *)
Theorem begin_end_range w this v :
  store w !! this = Some v → wf v →
  ∃ b e,
    begin this w = Ok b w ∧ end_ this w = Ok e w ∧
    (b = e ↔ size_ v = 0) ∧
    (0 < size_ v →
       b = cell 0 ∧ e = cell (size_ v) ∧
       ∀ k, k < size_ v → ∃ x, block v !! k = Some x ∧ load this (cell k) w = Ok x w).
Proof.
  intros H Hwf. rewrite (end__run _ _ _ H Hwf). unfold begin, Data.
  rewrite run_bind, (get_data_run _ _ _ H), run_ret.
  eexists _, _. split; [done|]. split; [done|].
  destruct v as [[blk|] n]; unfold wf in Hwf; cbn in *.
  - split; [split; [by intros [= <-]|by intros ->]|].
    intros Hpos. split; [done|]. split; [done|]. intros k Hk.
    assert (is_Some (blk !! k)) as [x Hx] by (apply lookup_lt_is_Some; lia).
    exists x. split; [done|]. by eapply read_elem_run.
  - subst n. split; [done|]. lia.
Qed.

Lemma last_run w this v :
  store w !! this = Some v → wf v →
  last this w = Ok (match size_ v with 0 => nullptr | S k => cell k end) w.
Proof.
  intros H Hwf. unfold last. rewrite run_bind, (get_size_run _ _ _ H).
  destruct (decide (0 < size_ v)) as [Hpos|Hpos].
  - rewrite run_bind, (end__run _ _ _ H Hwf).
    destruct v as [[blk|] n]; unfold wf in Hwf; cbn in *; [|lia].
    by destruct n; [lia|].
  - by replace (size_ v) with 0 by lia.
Qed.

(** X12: [last()] is defined on every well-formed container: it is the null
    pointer exactly when the container has no element, and otherwise the
    address of the cell of index [Size() - 1], which holds an element. *)
Theorem last_null_or_last_element w this v :
  store w !! this = Some v → wf v →
  ∃ p, last this w = Ok p w ∧
       (p = nullptr ↔ size_ v = 0) ∧
       ∀ k, p = cell k →
            S k = size_ v ∧ ∃ x, block v !! k = Some x ∧ load this p w = Ok x w.
Proof.
  intros H Hwf. rewrite (last_run _ _ _ H Hwf). eexists. split; [done|].
  destruct (size_ v) as [|n] eqn:Hn.
  - split; [done|]. by intros k.
  - split; [by split|]. intros k [= <-]. split; [done|].
    assert (is_Some (block v !! n)) as [x Hx].
    { apply lookup_lt_is_Some. unfold wf in Hwf. lia. }
    exists x. split; [done|].
    destruct (block_lookup_data _ _ _ Hx) as (blk & Hd & Hx').
    by eapply read_elem_run.
Qed.

(** X13: after a [PushBack(value)] that returned [true], [last()] is the address
    of a cell holding [value]. *)
Theorem last_after_PushBack w this v (value : T) :
  store w !! this = Some v → wf v → is_Some (heap w (clock w)) →
  ∃ w', (pushed ← PushBack this value;
         p ← last this;
         x ← load this p;
         mret (pushed, p, x)) w = Ok (true, cell (size_ v), value) w'.
Proof.
  intros H Hwf [junk Hh]. unfold wf in Hwf.
  rewrite run_bind, (PushBack_granted _ _ _ _ _ H Hwf Hh), run_bind.
  erewrite last_run; [|by eapply lookup_with_store_eq|].
  2:{ unfold wf. cbn. rewrite length_app. cbn. lia. }
  cbn [size_]. rewrite Nat.add_1_r, run_bind. cbn [load].
  erewrite read_elem_run; [|by eapply lookup_with_store_eq|done|].
  2:{ rewrite <- Hwf. apply list_lookup_middle. done. }
  rewrite run_ret. by eexists.
Qed.

End Vector_more_facts.

(** * The voltage read by the application *)

Section application_facts.

Import application.
Local Open Scope float_scope.

Lemma ascending_lookup (l : list float) : ∀ (i j : nat) x y,
  ascending l = true → (i < j)%nat → l !! i = Some x → l !! j = Some y →
  (x <? y) = true.
Proof.
  induction l as [|z l IH]; intros i j x y Hasc Hij Hx Hy; [done|].
  cbn [ascending] in Hasc. apply andb_prop in Hasc as [Hz Hl].
  destruct j as [|j]; [lia|]. cbn in Hy. destruct i as [|i].
  - injection Hx as <-. rewrite forallb_forall in Hz. apply Hz.
    apply list_elem_of_In. by eapply list_elem_of_lookup_2.
  - cbn in Hx. eapply (IH i j); [done|lia|done|done].
Qed.

Lemma uin_checked :
  forallb uin_in_range (seq 0 1024) = true ∧ ascending (uin <$> seq 0 1024) = true.
Proof. split; vm_compute; reflexivity. Qed.

(** X14: for every reading of the 10-bit converter, 0 to 1023, the voltage
    [uin] that [PredictTemp] passes to the model lies between 0 and 5, the
    two ends being reached exactly at the readings 0 and 1023, and a larger
    reading gives a strictly larger voltage. *)
Theorem uin_between_0_and_5 (reading later : nat) :
  (reading < later)%nat → (later ≤ 1023)%nat →
  (0 <=? uin reading) = true ∧ (uin later <=? 5) = true ∧
  (uin reading <? uin later) = true ∧
  uin 0 = 0 ∧ uin 1023 = 5.
Proof.
  intros Hlt Hle. destruct uin_checked as [Hall Hasc].
  rewrite forallb_forall in Hall.
  assert (∀ r, (r ≤ 1023)%nat → uin_in_range r = true) as Hr.
  { intros r Hr. apply Hall, in_seq. lia. }
  pose proof (Hr reading) as Hin. pose proof (Hr later Hle) as Hin'.
  apply andb_prop in Hin as [H0 _]; [|lia]. apply andb_prop in Hin' as [_ H5].
  split; [done|]. split; [done|]. split; [|by split].
  apply (ascending_lookup _ reading later _ _ Hasc Hlt).
  - rewrite list_lookup_fmap, lookup_seq_lt by lia. done.
  - rewrite list_lookup_fmap, lookup_seq_lt by lia. done.
Qed.

End application_facts.

(** * The further properties at concrete inputs *)

Section More_examples.

Import scenarios application.

Lemma PushBack_appends_witness :
  store (two_containers generous) !! 0 = Some (holding [1; 2]) ∧ wf (holding [1; 2]) ∧
  ∃ w' blk, PushBack 0 7 (two_containers generous) = Ok true w' ∧
            store w' = [mkVector (Some blk) 3; holding [3]] ∧
            blk !! 2 = Some 7.
Proof.
  split; [reflexivity|]. split; [reflexivity|].
  destruct (PushBack_appends (two_containers generous) 0 (holding [1; 2]) 7 eq_refl eq_refl)
    as (b & w' & Hrun & _ & -> & blk & Hstore & _ & Hlast & _).
  exists w', blk. split; [exact Hrun|]. split; [exact Hstore|exact Hlast].
Defined.

Lemma PushBack_all_granted_witness :
  store (one_empty generous) !! 0 = Some empty_Vector ∧
  (∀ k, k < length [7; 8; 9] → is_Some (generous (0 + k))) ∧
  ∃ w' v', PushBack_all 0 [7; 8; 9] (one_empty generous) = Ok [true; true; true] w' ∧
           store w' = [v'] ∧ block v' = [7; 8; 9] ∧ size_ v' = 3.
Proof.
  split; [reflexivity|]. split; [intros k _; eexists; reflexivity|].
  destruct (PushBack_all_granted [7; 8; 9] (one_empty generous) 0 empty_Vector eq_refl eq_refl
              (λ k _, ex_intro _ _ eq_refl))
    as (w' & v' & Hrun & Hstore & Hblock & Hsize & _).
  exists w', v'. split; [exact Hrun|]. split; [exact Hstore|]. split; [exact Hblock|exact Hsize].
Defined.

Lemma PushBack_then_PopBack_witness :
  store (two_containers generous) !! 0 = Some (holding [1; 2]) ∧ wf (holding [1; 2]) ∧
  ∃ w' v', (PushBack 0 7;; PopBack 0) (two_containers generous) = Ok true w' ∧
           store w' = [v'; holding [3]] ∧ block v' = [1; 2] ∧ size_ v' = 2.
Proof.
  split; [reflexivity|]. split; [reflexivity|].
  exact (PushBack_then_PopBack (two_containers generous) 0 (holding [1; 2]) 7 eq_refl eq_refl
           (ex_intro _ _ eq_refl) (ex_intro _ _ eq_refl)).
Defined.

Lemma Resize_then_Resize_witness :
  store (two_containers generous) !! 0 = Some (holding [1; 2]) ∧ wf (holding [1; 2]) ∧ 2 ≤ 5 ∧
  ∃ w' blk, (Resize 0 5;; Resize 0 2) (two_containers generous) = Ok true w' ∧
            store w' = [mkVector (Some blk) 2; holding [3]] ∧ blk = [1; 2].
Proof.
  split; [reflexivity|]. split; [reflexivity|]. split; [lia|].
  destruct (Resize_then_Resize (two_containers generous) 0 (holding [1; 2]) 5 2 (λ _, 0) (λ _, 0)
              eq_refl eq_refl ltac:(lia) eq_refl eq_refl)
    as (w' & blk & Hrun & Hstore & _ & _ & Hsame).
  exists w', blk. split; [exact Hrun|]. split; [exact Hstore|exact (Hsame eq_refl)].
Defined.

Lemma Vector_copy_spec_witness :
  store (two_containers generous) !! 0 = Some (holding [1; 2]) ∧ wf (holding [1; 2]) ∧
  ∃ w' copy, Vector_copy 0 (two_containers generous) = Ok 2 w' ∧
             clock w' = 1 ∧
             store w' = [holding [1; 2]; holding [3]; copy] ∧
             size_ copy = 2 ∧ ∃ blk, data_ copy = Some blk ∧ ∀ i, blk !! i = [1; 2] !! i.
Proof.
  split; [reflexivity|]. split; [reflexivity|].
  exact (Vector_copy_spec (two_containers generous) 0 (holding [1; 2]) eq_refl eq_refl).
Defined.

Lemma Assign_within_bounds_witness :
  0 ≠ 1 ∧
  store (two_containers generous) !! 0 = Some (holding [1; 2]) ∧
  store (two_containers generous) !! 1 = Some (holding [3]) ∧
  wf (holding [1; 2]) ∧ wf (holding [3]) ∧
  ∃ w' v', Assign 0 1 1 (two_containers generous) = Ok tt w' ∧
           store w' = [v'; holding [3]] ∧ size_ v' = 2 ∧ block v' = [1; 3].
Proof.
  split; [lia|]. do 4 (split; [reflexivity|]).
  exact (Assign_within_bounds (two_containers generous) 0 1 (holding [1; 2]) (holding [3]) 1
           ltac:(lia) eq_refl eq_refl eq_refl eq_refl).
Defined.

Lemma Assign_values_within_bounds_witness :
  store (two_containers generous) !! 0 = Some (holding [1; 2]) ∧ wf (holding [1; 2]) ∧
  ∃ w' v', Assign_values 0 [7; 8; 9] 1 (two_containers generous) = Ok tt w' ∧
           store w' = [v'; holding [3]] ∧ size_ v' = 2 ∧ block v' = [1; 7].
Proof.
  do 2 (split; [reflexivity|]).
  exact (Assign_values_within_bounds (two_containers generous) 0 (holding [1; 2]) [7; 8; 9] 1
           eq_refl eq_refl).
Defined.

Lemma operator_assign_values_spec_witness :
  store (two_containers refusing_third) !! 0 = Some (holding [1; 2]) ∧
  ∃ w', operator_assign_values 0 [7; 8; 9] (two_containers refusing_third) = Ok tt w' ∧
        clock w' = 2 ∧
        store w' = [holding [7; 8; 9]; holding [3]; empty_Vector].
Proof.
  split; [reflexivity|].
  destruct (operator_assign_values_spec (two_containers refusing_third) 0 (holding [1; 2])
              [7; 8; 9] eq_refl)
    as (w' & v' & Hrun & Hclock & Hstore & ->).
  exists w'. split; [exact Hrun|]. split; [exact Hclock|exact Hstore].
Defined.

Lemma operator_add_assign_values_spec_witness :
  store (two_containers generous) !! 1 = Some (holding [3]) ∧ wf (holding [3]) ∧
  ∃ w', operator_add_assign_values 1 [4; 5] (two_containers generous) = Ok tt w' ∧
        clock w' = 1 ∧
        store w' = [holding [1; 2]; holding [3; 4; 5]].
Proof.
  do 2 (split; [reflexivity|]).
  exact (operator_add_assign_values_spec (two_containers generous) 1 (holding [3]) [4; 5]
           eq_refl eq_refl).
Defined.

Lemma begin_end_range_witness :
  store (two_containers generous) !! 0 = Some (holding [1; 2]) ∧ wf (holding [1; 2]) ∧
  ∃ b e, begin 0 (two_containers generous) = Ok b (two_containers generous) ∧
         end_ 0 (two_containers generous) = Ok e (two_containers generous) ∧
         b = cell 0 ∧ e = cell 2.
Proof.
  do 2 (split; [reflexivity|]).
  destruct (begin_end_range (two_containers generous) 0 (holding [1; 2]) eq_refl eq_refl)
    as (b & e & Hb & He & _ & Hrange).
  destruct (Hrange (le_S 1 1 (le_n 1))) as (-> & -> & _).
  exists (cell 0), (cell 2). split; [exact Hb|]. split; [exact He|]. split; reflexivity.
Defined.

Lemma last_null_or_last_element_witness :
  store (two_containers generous) !! 0 = Some (holding [1; 2]) ∧ wf (holding [1; 2]) ∧
  ∃ p, last 0 (two_containers generous) = Ok p (two_containers generous) ∧
       (p = nullptr ↔ size_ (holding [1; 2]) = 0).
Proof.
  do 2 (split; [reflexivity|]).
  destruct (last_null_or_last_element (two_containers generous) 0 (holding [1; 2])
              eq_refl eq_refl)
    as (p & Hrun & Hnull & _).
  exists p. split; [exact Hrun|exact Hnull].
Defined.

Lemma last_after_PushBack_witness :
  store (two_containers generous) !! 0 = Some (holding [1; 2]) ∧ wf (holding [1; 2]) ∧
  ∃ w', (pushed ← PushBack 0 7; p ← last 0; x ← load 0 p; mret (pushed, p, x))
          (two_containers generous) = Ok (true, cell 2, 7) w'.
Proof.
  do 2 (split; [reflexivity|]).
  exact (last_after_PushBack (two_containers generous) 0 (holding [1; 2]) 7 eq_refl eq_refl
           (ex_intro _ _ eq_refl)).
Defined.

Lemma uin_between_0_and_5_witness :
  200 < 512 ∧ 512 ≤ 1023 ∧
  PrimFloat.leb 0 (uin 200) = true ∧ PrimFloat.leb (uin 512) 5 = true ∧
  PrimFloat.ltb (uin 200) (uin 512) = true.
Proof.
  split; [lia|]. split; [lia|].
  destruct (uin_between_0_and_5 200 512 ltac:(lia) ltac:(lia)) as (H0 & H5 & Hlt & _).
  split; [exact H0|]. split; [exact H5|exact Hlt].
Defined.

End More_examples.

